(** * VoidTx: the batch payment contract of FlashPay

    A shallow embedding of the Solidity contract [VoidTx]
    (pragma solidity ^0.8.20) and the properties of its settlement routine
    [batchPay], of the read-only helpers [estimateBatchCost] and [getStats]
    and of the rejecting [receive] and [fallback] functions.

    Modelling conventions.
    - [uint256] values are integers of [Z]; Solidity 0.8 arithmetic is
      checked, so [+] and [-] are [checked_add] and [checked_sub], which
      fail with [Panic 0x11] instead of wrapping.
    - A [require] that fails reverts with its reason string.
    - Contract code runs in the monad [M]: it threads the machine state and
      returns, next to the result, the state reached when the code returned
      or reverted.  The entry points ([batchPay], [execute]) then apply the
      EVM rule for a reverted call: the state of before the call is kept.
    - An external call [target.call{value: v}] with empty call data is
      [external_call].  Its outcome is taken from an oracle ([World]), since
      it depends on code outside the contract; callees are assumed not to
      call back into the contract during the call.  Each call is recorded
      in the trace [calls], tagged with the place in [batchPay] it was
      issued from.
    - Gas is not modelled: a call never runs out of it. *)

From Stdlib Require Import ZArith Lia.
From stdpp Require Import base list gmap strings.

Local Open Scope string_scope.
Local Open Scope list_scope.
Local Open Scope Z_scope.

(** ** Values, errors and results *)

Definition address : Type := Z.

Definition uint256_max : Z := 2 ^ 256 - 1.

(** [uint256 public constant MIN_AMOUNT = 0.0001 ether], in wei. *)
Definition MIN_AMOUNT : Z := 10 ^ 14.

(** [uint256 public constant MAX_RECIPIENTS = 100]. *)
Definition MAX_RECIPIENTS : Z := 100.

Inductive Error : Type :=
| Revert (reason : string)
| Panic (code : Z).

(** The names the specification gives to the revert reasons of the code. *)
Definition EmptyBatch : Error := Revert "No payments provided".
Definition BatchTooLarge : Error := Revert "Too many recipients".
Definition InvalidRecipient : Error := Revert "Invalid recipient address".
Definition AmountTooSmall : Error := Revert "Amount too small".
Definition InsufficientFunds : Error := Revert "Insufficient funds sent".
Definition RefundFailed : Error := Revert "Refund failed".
Definition ExcessRefundFailed : Error := Revert "Excess refund failed".
(** Arithmetic overflow or underflow of checked arithmetic. *)
Definition Overflow : Error := Panic 17.
(** Array index out of bounds. *)
Definition OutOfBounds : Error := Panic 50.

Inductive Res (A : Type) : Type :=
| Ok (a : A)
| Fail (e : Error).
Arguments Ok {A} a.
Arguments Fail {A} e.

#[global] Instance Res_ret : MRet Res := λ A a, Ok a.
#[global] Instance Res_bind : MBind Res :=
  λ A B f m, match m with Ok a => f a | Fail e => Fail e end.

Definition checked_add (a b : Z) : Res Z :=
  if decide (a + b ≤ uint256_max) then Ok (a + b) else Fail Overflow.

Definition checked_sub (a b : Z) : Res Z :=
  if decide (b ≤ a) then Ok (a - b) else Fail Overflow.

Definition require (c : bool) (reason : string) : Res unit :=
  if c then Ok tt else Fail (Revert reason).

(** ** Structs and events *)

Record Payment : Type := {
  recipient : address;
  amount : Z
}.

Record PaymentResult : Type := {
  success : bool;
  r_recipient : address;
  r_amount : Z
}.

Inductive Event : Type :=
| BatchPaymentInitiated (sender : address) (totalRecipients totalAmount timestamp : Z)
| PaymentSuccess (sender recipient_ : address) (amount_ index : Z)
| PaymentFailed (sender recipient_ : address) (amount_ index : Z) (reason : string)
| BatchPaymentCompleted (sender : address) (successCount_ failureCount_ totalProcessed_ : Z).

(** ** Machine state *)

(** The three places of [batchPay] that send value. *)
Inductive CallSite : Type :=
| AtPayment        (* payment.recipient.call{value: payment.amount} *)
| AtRefund         (* payable(msg.sender).call{value: failedAmount} *)
| AtExcessRefund.  (* payable(msg.sender).call{value: excess} *)

Record ExtCall : Type := {
  call_site : CallSite;
  call_target : address;
  call_value : Z;
  call_ok : bool;
  call_returned : string   (* the data the callee returned *)
}.

Record State : Type := {
  totalPaymentsProcessed : Z;
  totalVolumeProcessed : Z;
  balances : gmap Z Z;      (* ether held by every account, in wei *)
  events : list Event;      (* events emitted, oldest first *)
  calls : list ExtCall      (* external calls made, oldest first *)
}.

Definition balance (st : State) (a : address) : Z := default 0 (balances st !! a).

Definition set_balances (b : gmap Z Z) (st : State) : State :=
  {| totalPaymentsProcessed := totalPaymentsProcessed st;
     totalVolumeProcessed := totalVolumeProcessed st;
     balances := b; events := events st; calls := calls st |}.

Definition set_stats (n v : Z) (st : State) : State :=
  {| totalPaymentsProcessed := n; totalVolumeProcessed := v;
     balances := balances st; events := events st; calls := calls st |}.

Definition add_event (e : Event) (st : State) : State :=
  {| totalPaymentsProcessed := totalPaymentsProcessed st;
     totalVolumeProcessed := totalVolumeProcessed st;
     balances := balances st; events := events st ++ [e]; calls := calls st |}.

Definition add_call (c : ExtCall) (st : State) : State :=
  {| totalPaymentsProcessed := totalPaymentsProcessed st;
     totalVolumeProcessed := totalVolumeProcessed st;
     balances := balances st; events := events st; calls := calls st ++ [c] |}.

(** Moving [v] wei from one account to another. *)
Definition move (src dst : address) (v : Z) (b : gmap Z Z) : gmap Z Z :=
  let b1 := <[src := default 0 (b !! src) - v]> b in
  <[dst := default 0 (b1 !! dst) + v]> b1.

(** The context of one call into the contract. *)
Record Tx : Type := {
  this : address;          (* address(this) *)
  msg_sender : address;
  msg_value : Z;
  block_timestamp : Z
}.

(** The outside world: whether the [k]-th external call, to [target] with
    [v] wei, succeeds, and the data it returns (the revert reason when the
    callee reverts with one). *)
Definition World : Type := nat → address → Z → bool * string.

(** ** The execution monad *)

Definition M (A : Type) : Type := State → Res A * State.

#[global] Instance M_ret : MRet M := λ A a st, (Ok a, st).
#[global] Instance M_bind : MBind M :=
  λ A B f m st,
    match m st with
    | (Ok a, st') => f a st'
    | (Fail e, st') => (Fail e, st')
    end.

Definition lift {A : Type} (r : Res A) : M A := λ st, (r, st).

(** Reading the state, as a [view] function does. *)
Definition view {A : Type} (f : State → A) : M A := λ st, (Ok (f st), st).

Definition emit (e : Event) : M unit := λ st, (Ok tt, add_event e st).

(** [target.call{value: v}] with empty call data.  A call to the contract itself runs its
    own [receive], which reverts; a call for more than the contract holds
    fails; otherwise the world decides.  On success the value moves. *)
Definition call_outcome (w : World) (tx : Tx) (target : address) (v : Z)
    (st : State) : bool * string :=
  if decide (target = this tx) then (false, "Use batchPay function")
  else if decide (balance st (this tx) < v) then (false, EmptyString)
  else w (length (calls st)) target v.

Definition external_call (w : World) (tx : Tx) (s : CallSite)
    (target : address) (v : Z) : M (bool * string) :=
  λ st,
    let out := call_outcome w tx target v st in
    let st1 := if out.1 then set_balances (move (this tx) target v (balances st)) st
               else st in
    (Ok out,
     add_call {| call_site := s; call_target := target; call_value := v;
                 call_ok := out.1; call_returned := out.2 |} st1).

(** ** batchPay *)

(** [modifier validPayments]. *)
Definition validPayments (payments : list Payment) : Res unit :=
  require (bool_decide (0 < Z.of_nat (length payments))) "No payments provided";;
  require (bool_decide (Z.of_nat (length payments) ≤ MAX_RECIPIENTS)) "Too many recipients".

(** The first loop of [batchPay]: validates every payment and sums up
    [totalRequired]. *)
Fixpoint validate_loop (payments : list Payment) (totalRequired : Z) : Res Z :=
  match payments with
  | [] => Ok totalRequired
  | p :: rest =>
      require (bool_decide (recipient p ≠ 0)) "Invalid recipient address";;
      require (bool_decide (MIN_AMOUNT ≤ amount p)) "Amount too small";;
      totalRequired' ← checked_add totalRequired (amount p);
      validate_loop rest totalRequired'
  end.

(** The local variables of the second loop. *)
Record Locals : Type := {
  results : list PaymentResult;
  successCount : Z;
  failureCount : Z;
  totalProcessed : Z
}.

(** [results[i] = r] on a memory array: out of range it panics. *)
Definition store_result (i : nat) (r : PaymentResult)
    (rs : list PaymentResult) : Res (list PaymentResult) :=
  if decide (i < length rs)%nat then Ok (<[i := r]> rs) else Fail OutOfBounds.

(** The second loop of [batchPay], from index [i] on; [payments] are the
    payments [payments[i]], [payments[i+1]], ... still to process. *)
Fixpoint process_loop (w : World) (tx : Tx) (payments : list Payment)
    (i : nat) (l : Locals) : M Locals :=
  match payments with
  | [] => mret l
  | payment :: rest =>
      out ← external_call w tx AtPayment (recipient payment) (amount payment);
      let ok : bool := out.1 in
      rs ← lift (store_result i
                   {| success := ok; r_recipient := recipient payment;
                      r_amount := amount payment |} (results l));
      l' ← (if ok then
              sc ← lift (checked_add (successCount l) 1);
              tp ← lift (checked_add (totalProcessed l) (amount payment));
              emit (PaymentSuccess (msg_sender tx) (recipient payment)
                      (amount payment) (Z.of_nat i));;
              mret {| results := rs; successCount := sc;
                      failureCount := failureCount l; totalProcessed := tp |}
            else
              fc ← lift (checked_add (failureCount l) 1);
              emit (PaymentFailed (msg_sender tx) (recipient payment)
                      (amount payment) (Z.of_nat i) "Transfer failed");;
              mret {| results := rs; successCount := successCount l;
                      failureCount := fc; totalProcessed := totalProcessed l |});
      process_loop w tx rest (S i) l'
  end.

(** [new PaymentResult[](n)]: [n] zero-initialised results. *)
Definition new_results (n : nat) : list PaymentResult :=
  replicate n {| success := false; r_recipient := 0; r_amount := 0 |}.

(** [totalPaymentsProcessed += successCount; totalVolumeProcessed += totalProcessed]. *)
Definition update_stats (l : Locals) : M unit :=
  λ st,
    match checked_add (totalPaymentsProcessed st) (successCount l) with
    | Fail e => (Fail e, st)
    | Ok n =>
        let st1 := set_stats n (totalVolumeProcessed st) st in
        match checked_add (totalVolumeProcessed st1) (totalProcessed l) with
        | Fail e => (Fail e, st1)
        | Ok v => (Ok tt, set_stats n v st1)
        end
    end.

(** The end of [batchPay]: the two returns of value to the sender. *)
Definition reconcile (w : World) (tx : Tx) (totalRequired : Z) (l : Locals) : M unit :=
  failedAmount ← lift (checked_sub totalRequired (totalProcessed l));
  (if decide (0 < failedAmount) then
     refund ← external_call w tx AtRefund (msg_sender tx) failedAmount;
     lift (require refund.1 "Refund failed")
   else mret tt);;
  excess ← lift (checked_sub (msg_value tx) totalRequired);
  (if decide (0 < excess) then
     excessRefund ← external_call w tx AtExcessRefund (msg_sender tx) excess;
     lift (require excessRefund.1 "Excess refund failed")
   else mret tt).

(** The body of [batchPay], run on the state that already holds
    [msg.value] on the contract's account. *)
Definition batchPay_body (w : World) (tx : Tx) (payments : list Payment)
    : M (list PaymentResult) :=
  lift (validPayments payments);;
  let paymentsLength := length payments in
  totalRequired ← lift (validate_loop payments 0);
  lift (require (bool_decide (totalRequired ≤ msg_value tx)) "Insufficient funds sent");;
  emit (BatchPaymentInitiated (msg_sender tx) (Z.of_nat paymentsLength)
          totalRequired (block_timestamp tx));;
  l ← process_loop w tx payments 0
        {| results := new_results paymentsLength; successCount := 0;
           failureCount := 0; totalProcessed := 0 |};
  update_stats l;;
  emit (BatchPaymentCompleted (msg_sender tx) (successCount l)
          (failureCount l) (totalProcessed l));;
  reconcile w tx totalRequired l;;
  mret (results l).

(** The state in which the body of a payable function starts: the value
    sent with the call has moved from the sender to the contract. *)
Definition receive_value (tx : Tx) (st : State) : State :=
  set_balances (move (msg_sender tx) (this tx) (msg_value tx) (balances st)) st.

(** A call of a function of the contract: a revert undoes every effect of
    the call, the transfer of [msg.value] included. *)
Definition transact {A : Type} (body : M A) (tx : Tx) (st : State) : Res A * State :=
  match body (receive_value tx st) with
  | (Ok a, st') => (Ok a, st')
  | (Fail e, _) => (Fail e, st)
  end.

Definition batchPay (w : World) (tx : Tx) (payments : list Payment)
    (st : State) : Res (list PaymentResult) * State :=
  transact (batchPay_body w tx payments) tx st.

(** ** The other functions of the contract *)

(** [estimateBatchCost] is [pure]: it neither reads nor writes the state. *)
Fixpoint estimate_loop (payments : list Payment) (total : Z) : Res Z :=
  match payments with
  | [] => Ok total
  | p :: rest =>
      total' ← checked_add total (amount p);
      estimate_loop rest total'
  end.

Definition estimateBatchCost (payments : list Payment) : Res Z :=
  estimate_loop payments 0.

(** [getStats] is [view]: it reads the state. *)
Definition getStats (st : State) : Z * Z :=
  (totalPaymentsProcessed st, totalVolumeProcessed st).

Definition receive : M unit := lift (Fail (Revert "Use batchPay function")).

Definition fallback : M unit := lift (Fail (Revert "Function does not exist")).

(** The calls the contract can receive ... *)
Inductive Call : Type :=
| CallBatchPay (payments : list Payment)
| CallEstimateBatchCost (payments : list Payment)
| CallGetStats
| CallTotalPaymentsProcessed   (* getter of the public state variable *)
| CallTotalVolumeProcessed     (* getter of the public state variable *)
| CallMIN_AMOUNT               (* getter of the public constant *)
| CallMAX_RECIPIENTS           (* getter of the public constant *)
| CallPlainTransfer            (* empty call data: runs [receive] *)
| CallUnknown.                 (* no matching function: runs [fallback] *)

(** ... and what they return. *)
Inductive Returned : Type :=
| RetResults (rs : list PaymentResult)
| RetUint (n : Z)
| RetStats (paymentsProcessed volumeProcessed : Z)
| RetNothing.

(** A function that is not [payable] reverts, without a reason, when it is
    called with value. *)
Definition nonpayable (tx : Tx) : M unit :=
  lift (require (bool_decide (msg_value tx = 0)) EmptyString).

Definition dispatch (w : World) (tx : Tx) (c : Call) : M Returned :=
  match c with
  | CallBatchPay payments =>
      rs ← batchPay_body w tx payments; mret (RetResults rs)
  | CallEstimateBatchCost payments =>
      nonpayable tx;; total ← lift (estimateBatchCost payments); mret (RetUint total)
  | CallGetStats =>
      nonpayable tx;; stats ← view getStats; mret (RetStats stats.1 stats.2)
  | CallTotalPaymentsProcessed =>
      nonpayable tx;; n ← view totalPaymentsProcessed; mret (RetUint n)
  | CallTotalVolumeProcessed =>
      nonpayable tx;; v ← view totalVolumeProcessed; mret (RetUint v)
  | CallPlainTransfer => receive;; mret RetNothing
  | CallMIN_AMOUNT =>
      nonpayable tx;; n ← view (λ _, MIN_AMOUNT); mret (RetUint n)
  | CallMAX_RECIPIENTS =>
      nonpayable tx;; n ← view (λ _, MAX_RECIPIENTS); mret (RetUint n)
  | CallUnknown => fallback;; mret RetNothing
  end.

Definition execute (w : World) (tx : Tx) (c : Call) (st : State)
    : Res Returned * State :=
  transact (dispatch w tx c) tx st.

(** ** Quantities the properties are stated with *)

(** The exact sum of the amounts of a batch. *)
Definition sum_amounts (ps : list Payment) : Z :=
  foldr (λ p s, amount p + s) 0 ps.

(** What calldata decoding guarantees of a batch: amounts are [uint256],
    recipients are 160-bit addresses. *)
Definition wf_payment (p : Payment) : Prop :=
  0 ≤ amount p ≤ uint256_max ∧ 0 ≤ recipient p < 2 ^ 160.

Definition wf_batch (ps : list Payment) : Prop := Forall wf_payment ps.

(** The two checks the first loop makes on a payment. *)
Definition valid_payment (p : Payment) : Prop :=
  recipient p ≠ 0 ∧ MIN_AMOUNT ≤ amount p.

(** Number of successful and of failed results, and the amounts delivered:
    in total, and to one account. *)
Definition count_success (rs : list PaymentResult) : Z :=
  foldr (λ r n, (if success r then 1 else 0) + n) 0 rs.

Definition count_failure (rs : list PaymentResult) : Z :=
  foldr (λ r n, (if success r then 0 else 1) + n) 0 rs.

Definition paid_total (rs : list PaymentResult) : Z :=
  foldr (λ r s, (if success r then r_amount r else 0) + s) 0 rs.

Definition paid_to (a : address) (rs : list PaymentResult) : Z :=
  foldr (λ r s, (if success r then if decide (r_recipient r = a) then r_amount r else 0
                 else 0) + s) 0 rs.

(** A result records a payment; a call of the second loop carries out a
    result. *)
Definition records (p : Payment) (r : PaymentResult) : Prop :=
  r_recipient r = recipient p ∧ r_amount r = amount p.

Definition carries_out (r : PaymentResult) (c : ExtCall) : Prop :=
  call_site c = AtPayment ∧ call_target c = r_recipient r ∧
  call_value c = r_amount r ∧ call_ok c = success r.

(** The event the second loop emits for the payment of index [i]. *)
Definition payment_event (sender : address) (i : nat) (r : PaymentResult) : Event :=
  if success r
  then PaymentSuccess sender (r_recipient r) (r_amount r) (Z.of_nat i)
  else PaymentFailed sender (r_recipient r) (r_amount r) (Z.of_nat i) "Transfer failed".

Fixpoint loop_events (sender : address) (i : nat) (rs : list PaymentResult) : list Event :=
  match rs with
  | [] => []
  | r :: rs' => payment_event sender i r :: loop_events sender (S i) rs'
  end.

(** The external calls made since the state [st]. *)
Definition calls_since (st st' : State) : list ExtCall :=
  drop (length (calls st)) (calls st').

Definition events_since (st st' : State) : list Event :=
  drop (length (events st)) (events st').

(** ** Notions the proofs are organised around *)

(** The state after [target.call{value: v}] issued from [s]. *)
Definition after_call (w : World) (tx : Tx) (s : CallSite) (target : address)
    (v : Z) (st : State) : State :=
  (external_call w tx s target v st).2.
Arguments after_call : simpl never.

(** What the second loop has done when it has produced the results [rs],
    starting at index [i] with locals [l] in state [st]. *)
Record loop_effect (tx : Tx) (i : nat) (rs : list PaymentResult)
    (l l' : Locals) (st st' : State) : Prop := {
  le_length : length (results l') = length (results l);
  le_before : ∀ j, (j < i)%nat → results l' !! j = results l !! j;
  le_written : ∀ k r, rs !! k = Some r → results l' !! (i + k)%nat = Some r;
  le_success : successCount l' = successCount l + count_success rs;
  le_failure : failureCount l' = failureCount l + count_failure rs;
  le_total : totalProcessed l' = totalProcessed l + paid_total rs;
  le_payments : totalPaymentsProcessed st' = totalPaymentsProcessed st;
  le_volume : totalVolumeProcessed st' = totalVolumeProcessed st;
  le_events : events st' = events st ++ loop_events (msg_sender tx) i rs;
  le_calls : ∃ cs, calls st' = calls st ++ cs ∧ Forall2 carries_out rs cs;
  le_balance : ∀ a, balance st' a =
     balance st a + paid_to a rs - (if decide (a = this tx) then paid_total rs else 0);
  le_self : paid_to (this tx) rs = 0
}.

(** The checks [batchPay] makes before its first event, in their order;
    the value is [totalRequired]. *)
Definition validation (tx : Tx) (ps : list Payment) : Res Z :=
  validPayments ps;;
  totalRequired ← validate_loop ps 0;
  require (bool_decide (totalRequired ≤ msg_value tx)) "Insufficient funds sent";;
  mret totalRequired.

Definition initial_locals (n : nat) : Locals :=
  {| results := new_results n; successCount := 0; failureCount := 0;
     totalProcessed := 0 |}.

(** What [batchPay] does after its second loop. *)
Definition finish (w : World) (tx : Tx) (totalRequired : Z) (l : Locals)
    : M (list PaymentResult) :=
  update_stats l;;
  emit (BatchPaymentCompleted (msg_sender tx) (successCount l)
          (failureCount l) (totalProcessed l));;
  reconcile w tx totalRequired l;;
  mret (results l).

(** The error a failed call raises: a failed payment raises none. *)
Definition site_error (s : CallSite) : option Error :=
  match s with
  | AtPayment => None
  | AtRefund => Some RefundFailed
  | AtExcessRefund => Some ExcessRefundFailed
  end.

(** The returns of value the reconciliation has to make. *)
Definition refund_plan (failedAmount excess : Z) : list (CallSite * Z) :=
  (if decide (0 < failedAmount) then [(AtRefund, failedAmount)] else []) ++
  (if decide (0 < excess) then [(AtExcessRefund, excess)] else []).

(** One return of value to the sender:
    [if (v > 0) { (ok, ) = sender.call{value: v}; require(ok, reason); }]. *)
Definition refund_step (w : World) (tx : Tx) (s : CallSite) (reason : string)
    (v : Z) : M unit :=
  if decide (0 < v) then
    out ← external_call w tx s (msg_sender tx) v;
    lift (require out.1 reason)
  else mret tt.

(** [rs] are the results of the second loop, [cs_pay] the calls of the
    second loop and [cs_ref] the calls of the reconciliation; [st] is the
    state in which the body starts, [st'] the state in which it returns or
    reverts, and [r] its result. *)
Record settlement (tx : Tx) (ps : list Payment) (t : Z) (st st' : State)
    (r : Res (list PaymentResult)) (rs : list PaymentResult)
    (cs_pay cs_ref : list ExtCall) : Prop := {
  s_records : Forall2 records ps rs;
  s_payments : Forall2 carries_out rs cs_pay;
  s_self : paid_to (this tx) rs = 0;
  s_calls : calls st' = calls st ++ cs_pay ++ cs_ref;
  s_refunds :
    Forall (λ c, call_site c ≠ AtPayment ∧ call_target c = msg_sender tx) cs_ref;
  s_fail : ∀ e, r = Fail e ↔
    (e = Overflow ∧ cs_ref = [] ∧
     (uint256_max < totalPaymentsProcessed st + count_success rs ∨
      uint256_max < totalVolumeProcessed st + paid_total rs))
    ∨ (∃ c, c ∈ cs_ref ∧ call_ok c = false ∧ site_error (call_site c) = Some e);
  s_ok : ∀ rs', r = Ok rs' →
    rs' = rs ∧
    totalPaymentsProcessed st' = totalPaymentsProcessed st + count_success rs ∧
    totalVolumeProcessed st' = totalVolumeProcessed st + paid_total rs ∧
    events st' =
      events st ++
      BatchPaymentInitiated (msg_sender tx) (Z.of_nat (length ps)) t
        (block_timestamp tx)
      :: loop_events (msg_sender tx) 0 rs ++
      [BatchPaymentCompleted (msg_sender tx) (count_success rs)
         (count_failure rs) (paid_total rs)] ∧
    Forall (λ c, call_ok c = true) cs_ref ∧
    map (λ c, (call_site c, call_value c)) cs_ref =
      refund_plan (t - paid_total rs) (msg_value tx - t) ∧
    ∀ a, balance st' a =
         balance st a + paid_to a rs
         + (if decide (a = msg_sender tx) then msg_value tx - paid_total rs else 0)
         - (if decide (a = this tx) then msg_value tx else 0)
}.

(** Two states that cannot be told apart: same statistics, same balance of
    every account, same events, same calls. *)
Definition same_state (st st' : State) : Prop :=
  totalPaymentsProcessed st' = totalPaymentsProcessed st ∧
  totalVolumeProcessed st' = totalVolumeProcessed st ∧
  (∀ a, balance st' a = balance st a) ∧
  events st' = events st ∧ calls st' = calls st.

(** A sequence of calls of the contract, each in its own context. *)
Definition run (w : World) (cs : list (Tx * Call)) (st : State) : State :=
  foldl (λ s txc, (execute w txc.1 txc.2 s).2) st cs.

(** The check of the first loop that the payment [p] fails, when the total
    of the payments before it is [acc]. *)
Definition check_fails (p : Payment) (acc : Z) (e : Error) : Prop :=
  (recipient p = 0 ∧ e = InvalidRecipient) ∨
  (recipient p ≠ 0 ∧ amount p < MIN_AMOUNT ∧ e = AmountTooSmall) ∨
  (recipient p ≠ 0 ∧ MIN_AMOUNT ≤ amount p ∧ uint256_max < acc + amount p ∧
   e = Overflow).

(** The payment of index [i] is reached by the first loop: the payments
    before it pass their checks and their total fits. *)
Definition reached (ps : list Payment) (i : nat) (p : Payment) : Prop :=
  ps !! i = Some p ∧ Forall valid_payment (take i ps) ∧
  sum_amounts (take i ps) ≤ uint256_max.

(** The errors of the specification that reject the input. *)
Definition input_error (e : Error) : Prop :=
  e = EmptyBatch ∨ e = BatchTooLarge ∨ e = InvalidRecipient ∨
  e = AmountTooSmall ∨ e = InsufficientFunds.

(** The reason the specification describes: the one the transfer gave, or
    the generic one when it gave none. *)
Definition spec_failure_reason (returned : string) : string :=
  if decide (returned = EmptyString) then "Transfer failed" else returned.

(** ** Scenarios *)

(** An initial state in which account 7 holds 10 ether, the contract at
    address 1000, and a call from account 7 that sends [v] wei. *)
Definition demo_state : State :=
  {| totalPaymentsProcessed := 0; totalVolumeProcessed := 0;
     balances := {[ 7 := 10 ^ 19 ]}; events := []; calls := [] |}.

Definition demo_tx (v : Z) : Tx :=
  {| this := 1000; msg_sender := 7; msg_value := v; block_timestamp := 5 |}.

(** A world in which every call is accepted, and one in which the calls
    to the accounts of [l] revert with "Payment rejected" (as the
    RejectPayment contract of the repository does). *)
Definition accept_all : World := λ _ _ _, (true, EmptyString).

Definition rejecting (l : list address) : World :=
  λ _ target _,
    if decide (target ∈ l) then (false, "Payment rejected") else (true, EmptyString).

Definition demo_batch : list Payment :=
  [ {| recipient := 11; amount := 10 ^ 18 |};
    {| recipient := 12; amount := 2 * 10 ^ 18 |};
    {| recipient := 13; amount := 10 ^ 15 |} ].

(** The results of [demo_batch] when the second recipient rejects. *)
Definition demo_results : list PaymentResult :=
  [ {| success := true; r_recipient := 11; r_amount := 10 ^ 18 |};
    {| success := false; r_recipient := 12; r_amount := 2 * 10 ^ 18 |};
    {| success := true; r_recipient := 13; r_amount := 10 ^ 15 |} ].

(** The batch of the counterexample: its first payment is too small, its
    second has no recipient. *)
Definition mixed_batch : list Payment :=
  [ {| recipient := 5; amount := 0 |};
    {| recipient := 0; amount := MIN_AMOUNT |} ].

(** Two payments of 2^255 wei each: every amount is a [uint256], their
    sum is not. *)
Definition overflow_batch : list Payment :=
  [ {| recipient := 11; amount := 2 ^ 255 |};
    {| recipient := 12; amount := 2 ^ 255 |} ].

(** What a call returns, the statistics after it, and the site, value and
    outcome of the calls it made. *)
Definition observe (st : State) (out : Res (list PaymentResult) * State) :=
  (out.1, getStats out.2,
   (λ c, (call_site c, call_value c, call_ok c)) <$> calls_since st out.2).

(** ** Callers of the contract *)

(** scripts/testTransaction.js, the value the script attaches:
    [recipients.reduce((sum, r) => sum + r.amount, 0n)], on BigInt. *)
Definition totalAmount (recipients : list Payment) : Z :=
  foldl (λ sum r, sum + amount r) 0 recipients.

(** scripts/testTransaction.js, the two counters the script derives from
    the logs of the receipt: [successCount] and [failureCount]. *)
Definition count_logs (logs : list Event) : Z * Z :=
  foldl (λ counts log,
           match log with
           | PaymentSuccess _ _ _ _ => (counts.1 + 1, counts.2)
           | PaymentFailed _ _ _ _ _ => (counts.1, counts.2 + 1)
           | _ => counts
           end) (0, 0) logs.

(** The results of the calls of [batchPay] that complete in a sequence of
    calls, oldest first. *)
Fixpoint completed (w : World) (cs : list (Tx * Call)) (st : State)
    : list (list PaymentResult) :=
  match cs with
  | [] => []
  | txc :: rest =>
      let out := execute w txc.1 txc.2 st in
      match txc.2, out.1 with
      | CallBatchPay _, Ok (RetResults rs) => rs :: completed w rest out.2
      | _, _ => completed w rest out.2
      end
  end.

(** ** The join sessions of the backend

    The routes of the QR join flow (qrJoinFlow.js), which keep the sessions
    in a [Map] from session identifiers to session objects.  A handler is a
    function of the clock, of the fields of the request and of the
    sessions; it returns the response and the sessions.
    - [now] is what [Date.now()] returns when the handler reads the clock,
      [now'] what it returns where the handler reads it a second time.
    - The identifier of a new session, which the code draws at random, is
      an input of [create].
    - The fields [address] and [creatorAddress] of a request are strings
      when present, and [maxRecipients] is an integer when present; with
      such requests no handler throws, so the 500 responses of the
      [catch] clauses are left out.  The other fields are arbitrary
      values, which the code only tests for truthiness and stores.
    - What belongs to JavaScript and to ethers is kept abstract, in the
      class [Js]; its functions are total, so clock readings are taken
      in the range where [toISOString] does not throw. *)
Module QrJoin.

(** What the handlers use of JavaScript and of the libraries. *)
Class Js : Type := {
  Value : Type;                       (* the values of JavaScript *)
  falsy : Value → bool;               (* [!v] *)
  of_string : string → Value;
  of_number : Z → Value;
  toLowerCase : string → string;      (* [s.toLowerCase()] *)
  isAddress : string → bool;          (* [ethers.isAddress(s)] *)
  toISOString : Z → string;           (* [new Date(t).toISOString()] *)
  FRONTEND_URL : option string        (* [process.env.FRONTEND_URL] *)
}.

(** [const SESSION_EXPIRY = 30 * 60 * 1000], in milliseconds. *)
Definition SESSION_EXPIRY : Z := 30 * 60 * 1000.

(** A field that is a string when present, if it is truthy: present and
    not empty. *)
Definition truthy (s : option string) : option string :=
  match s with
  | Some s => if decide (s = EmptyString) then None else Some s
  | None => None
  end.

Section Handlers.
Context `{Js}.

(** [v || d]. *)
Definition or_else (v d : Value) : Value := if falsy v then d else v.

Record Recipient : Type := {
  address : string;
  name : Value;
  amount : Value;
  joinMethod : Value;
  addedAt : Z
}.

Record Session : Type := {
  sessionId : string;
  creatorAddress : string;
  recipients : list Recipient;
  maxRecipients : Z;
  createdAt : Z;
  expiresAt : Z;
  active : bool
}.

Inductive Response : Type :=
| Failure (status : Z) (error : string)
| SessionCreated (sessionId_ joinLink webLink deepLink universalLink qrData : string)
    (expiresIn : Z)
| SessionInfo (sessionId_ : string) (recipientCount : nat) (maxRecipients_ : Z)
    (active_ : bool) (expiresAt_ : string)
| RecipientAdded (address_ : string) (name_ amount_ joinMethod_ : Value)
    (position totalRecipients : nat)
| RecipientList (recipients_ : list Recipient) (total : nat) (maxRecipients_ : Z)
| SessionClosed (message : string) (finalRecipients : list Recipient).

(** [session.recipients.push(r)] and [session.active = false], on the
    session object that the map holds. *)
Definition push (r : Recipient) (session : Session) : Session :=
  {| sessionId := sessionId session; creatorAddress := creatorAddress session;
     recipients := recipients session ++ [r];
     maxRecipients := maxRecipients session; createdAt := createdAt session;
     expiresAt := expiresAt session; active := active session |}.

Definition deactivate (session : Session) : Session :=
  {| sessionId := sessionId session; creatorAddress := creatorAddress session;
     recipients := recipients session;
     maxRecipients := maxRecipients session; createdAt := createdAt session;
     expiresAt := expiresAt session; active := false |}.

(** [POST /create]; [id] is what [generateSessionId()] returns. *)
Definition create (now now' : Z) (id : string) (creatorAddress_ : option string)
    (maxRecipients_ : option Z) (sessions : gmap string Session)
    : Response * gmap string Session :=
  match truthy creatorAddress_ with
  | None => (Failure 400 "Creator address required", sessions)
  | Some creator =>
      let frontendUrl := default "http://localhost:5173" (truthy FRONTEND_URL) in
      let webLink := (frontendUrl ++ "/join/" ++ id)%string in
      let deepLink := ("voidtx://join/" ++ id)%string in
      let universalLink := (frontendUrl ++ "?session=" ++ id)%string in
      let joinLink := webLink in
      (SessionCreated id joinLink webLink deepLink universalLink joinLink
         (SESSION_EXPIRY / 1000),
       <[id := {| sessionId := id; creatorAddress := creator; recipients := [];
                  maxRecipients := default 100 maxRecipients_;
                  createdAt := now; expiresAt := now' + SESSION_EXPIRY;
                  active := true |}]> sessions)
  end.

(** [GET /:sessionId]. *)
Definition get_session (now : Z) (id : string) (sessions : gmap string Session)
    : Response * gmap string Session :=
  match sessions !! id with
  | None => (Failure 404 "Session not found", sessions)
  | Some session =>
      if decide (now > expiresAt session)
      then (Failure 410 "Session expired", delete id sessions)
      else (SessionInfo (sessionId session) (length (recipients session))
              (maxRecipients session) (active session)
              (toISOString (expiresAt session)),
            sessions)
  end.

(** [POST /:sessionId/add]. *)
Definition add (now now' : Z) (id : string) (address_ : option string)
    (name_ amount_ joinMethod_ : Value) (sessions : gmap string Session)
    : Response * gmap string Session :=
  match truthy address_ with
  | None => (Failure 400 "Address required", sessions)
  | Some a =>
      match sessions !! id with
      | None => (Failure 404 "Session not found", sessions)
      | Some session =>
          if decide (now > expiresAt session)
          then (Failure 410 "Session expired", delete id sessions)
          else if negb (active session)
          then (Failure 403 "Session is closed", sessions)
          else if existsb (λ r, bool_decide (toLowerCase (address r) = toLowerCase a))
                    (recipients session)
          then (Failure 409 "Address already added", sessions)
          else if bool_decide (Z.of_nat (length (recipients session))
                               >= maxRecipients session)
          then (Failure 403 "Maximum recipients reached", sessions)
          else if negb (isAddress a)
          then (Failure 400 "Invalid Ethereum address", sessions)
          else
            let session' :=
              push {| address := a;
                      name := or_else name_ (of_string "Anonymous");
                      amount := or_else amount_ (of_number 0);
                      joinMethod := or_else joinMethod_ (of_string "qr");
                      addedAt := now' |} session in
            (RecipientAdded a (or_else name_ (of_string "Anonymous"))
               (or_else amount_ (of_number 0))
               (or_else joinMethod_ (of_string "qr"))
               (length (recipients session')) (length (recipients session')),
             <[id := session']> sessions)
      end
  end.

(** [GET /:sessionId/recipients]. *)
Definition get_recipients (id : string) (sessions : gmap string Session)
    : Response * gmap string Session :=
  match sessions !! id with
  | None => (Failure 404 "Session not found", sessions)
  | Some session =>
      (RecipientList (recipients session) (length (recipients session))
         (maxRecipients session), sessions)
  end.

(** [POST /:sessionId/close]. *)
Definition close (id : string) (creatorAddress_ : option string)
    (sessions : gmap string Session) : Response * gmap string Session :=
  match sessions !! id with
  | None => (Failure 404 "Session not found", sessions)
  | Some session =>
      if decide (Some (toLowerCase (creatorAddress session))
                 ≠ toLowerCase <$> creatorAddress_)
      then (Failure 403 "Only creator can close session", sessions)
      else (SessionClosed "Session closed" (recipients session),
            <[id := deactivate session]> sessions)
  end.

(** [cleanupExpiredSessions], run by a timer: it goes through the entries
    of the map and deletes the expired ones. *)
Definition cleanupExpiredSessions (now : Z) (sessions : gmap string Session)
    : gmap string Session :=
  map_fold (λ id session acc,
              if decide (now > expiresAt session) then delete id acc else acc)
    sessions sessions.

(** What the server receives: the requests, and the ticks of the timer. *)
Inductive Request : Type :=
| Create (id : string) (creatorAddress_ : option string) (maxRecipients_ : option Z)
| Get (id : string)
| Add (id : string) (address_ : option string) (name_ amount_ joinMethod_ : Value)
| Recipients (id : string)
| Close (id : string) (creatorAddress_ : option string)
| Cleanup.

Definition step (now now' : Z) (req : Request) (sessions : gmap string Session)
    : option Response * gmap string Session :=
  match req with
  | Create id c m => let out := create now now' id c m sessions in (Some out.1, out.2)
  | Get id => let out := get_session now id sessions in (Some out.1, out.2)
  | Add id a n v j => let out := add now now' id a n v j sessions in (Some out.1, out.2)
  | Recipients id => let out := get_recipients id sessions in (Some out.1, out.2)
  | Close id c => let out := close id c sessions in (Some out.1, out.2)
  | Cleanup => (None, cleanupExpiredSessions now sessions)
  end.

(** The sessions after the server has handled the requests [reqs], each
    with its clock readings, oldest first. *)
Definition serve (reqs : list (Z * Z * Request)) (sessions : gmap string Session)
    : gmap string Session :=
  foldl (λ s r, (step r.1.1 r.1.2 r.2 s).2) sessions reqs.

(** The session a request is about. *)
Definition target (req : Request) : option string :=
  match req with
  | Create id _ _ | Get id | Add id _ _ _ _ | Recipients id | Close id _ => Some id
  | Cleanup => None
  end.

(** The addresses of a session, as the duplicate check compares them. *)
Definition lowered (session : Session) : list string :=
  (λ r, toLowerCase (address r)) <$> recipients session.

(** What holds of every session that the map holds under [id]. *)
Record well_formed (id : string) (session : Session) : Prop := {
  wf_id : sessionId session = id;
  wf_creator : creatorAddress session ≠ EmptyString;
  wf_distinct : NoDup (lowered session);
  wf_addresses :
    Forall (λ r, address r ≠ EmptyString ∧ isAddress (address r) = true)
      (recipients session);
  wf_capacity :
    Z.of_nat (length (recipients session)) ≤ Z.max 0 (maxRecipients session)
}.

(** [later] is the session [earlier] after more requests: recipients are
    only added, at the end, and only while the session is active. *)
Record extends (earlier later : Session) : Prop := {
  ext_id : sessionId later = sessionId earlier;
  ext_creator : creatorAddress later = creatorAddress earlier;
  ext_max : maxRecipients later = maxRecipients earlier;
  ext_created : createdAt later = createdAt earlier;
  ext_expires : expiresAt later = expiresAt earlier;
  ext_recipients : recipients earlier `prefix_of` recipients later;
  ext_active : active later = true → active earlier = true;
  ext_closed : active earlier = false → later = earlier
}.

(** The request creates the session [id] (anew, if there is one). *)
Definition creates (id : string) (req : Request) : Prop :=
  match req with
  | Create id' _ _ => id' = id
  | _ => False
  end.

(** The response of an [add] that added the recipient. *)
Definition accepted (response : Response) : Prop :=
  match response with
  | RecipientAdded _ _ _ _ _ _ => True
  | _ => False
  end.

End Handlers.

(** An instance, for the examples: values are strings, the empty one being
    falsy; lower-casing is that of the letters A to Z, and an address is a
    string of 42 characters. *)
Definition lower (c : Ascii.ascii) : Ascii.ascii :=
  let n := Ascii.nat_of_ascii c in
  if (65 <=? n)%nat && (n <=? 90)%nat then Ascii.ascii_of_nat (n + 32) else c.

Fixpoint lower_string (s : string) : string :=
  match s with
  | EmptyString => EmptyString
  | String c s => String (lower c) (lower_string s)
  end.

Definition demo_js : Js :=
  {| Value := string; falsy := λ v, bool_decide (v = EmptyString);
     of_string := λ s, s; of_number := λ _, "0";
     toLowerCase := lower_string;
     isAddress := λ s, bool_decide (String.length s = 42%nat);
     toISOString := λ _, "1970-01-01T00:30:00.000Z"; FRONTEND_URL := None |}.

Definition alice : string := "0xAAaaaaaaaaaaaaaaaaaaaaaaaaaaaaaaaaaaaaaa".
Definition bob : string := "0xBBbbbbbbbbbbbbbbbbbbbbbbbbbbbbbbbbbbbbbb".
Definition carol : string := "0xCCcccccccccccccccccccccccccccccccccccccc".

(** A session for two recipients, created by carol at time 0: alice and
    bob join, carol closes it. *)
Definition demo_joins : list (Z * Z * @Request demo_js) :=
  [(0, 0, Create (H := demo_js) "k3x9" (Some carol) (Some 2));
   (1000, 1001, Add (H := demo_js) "k3x9" (Some alice) "Alice" "5" EmptyString);
   (2000, 2000, Add (H := demo_js) "k3x9" (Some bob) EmptyString EmptyString "nfc")].

Definition demo_closing : list (Z * Z * @Request demo_js) :=
  [(3000, 3000, Close (H := demo_js) "k3x9" (Some (lower_string carol)));
   (4000, 4000, Add (H := demo_js) "k3x9" (Some carol) "Carol" "1" "qr");
   (5000, 5000, Recipients (H := demo_js) "k3x9")].

Definition demo_created : gmap string (@Session demo_js) :=
  serve (H := demo_js) (take 1 demo_joins) ∅.

Definition demo_sessions : gmap string (@Session demo_js) :=
  serve (H := demo_js) demo_joins ∅.

Definition demo_new : @Session demo_js :=
  {| sessionId := "k3x9"; creatorAddress := carol; recipients := [];
     maxRecipients := 2; createdAt := 0; expiresAt := 1800000; active := true |}.

Definition demo_session : @Session demo_js :=
  {| sessionId := "k3x9"; creatorAddress := carol;
     recipients :=
       [ @Build_Recipient demo_js alice "Alice" "5" "qr" 1001;
         @Build_Recipient demo_js bob "Anonymous" "0" "nfc" 2000 ];
     maxRecipients := 2; createdAt := 0; expiresAt := 1800000; active := true |}.

End QrJoin.

(** * Properties *)

(** ** Arithmetic and ledger lemmas *)

Lemma uint256_max_pos : 0 < uint256_max.
Proof. reflexivity. Qed.

Lemma MIN_AMOUNT_pos : 0 < MIN_AMOUNT.
Proof. reflexivity. Qed.

Lemma checked_add_ok a b : a + b ≤ uint256_max → checked_add a b = Ok (a + b).
Proof. intros H. unfold checked_add. by rewrite decide_True. Qed.

Lemma checked_add_overflow a b : uint256_max < a + b → checked_add a b = Fail Overflow.
Proof. intros H. unfold checked_add. rewrite decide_False; [done | lia]. Qed.

Lemma checked_add_inv a b c : checked_add a b = Ok c → c = a + b ∧ a + b ≤ uint256_max.
Proof. unfold checked_add. case_decide; naive_solver. Qed.

Lemma checked_add_fail a b e :
  checked_add a b = Fail e → e = Overflow ∧ uint256_max < a + b.
Proof. unfold checked_add. case_decide; [done |]. intros [= <-]. split; [done | lia]. Qed.

Lemma checked_sub_ok a b : b ≤ a → checked_sub a b = Ok (a - b).
Proof. intros H. unfold checked_sub. by rewrite decide_True. Qed.

Lemma require_inv c reason : require c reason = Ok tt → c = true.
Proof. by destruct c. Qed.

Lemma balance_move (b : gmap Z Z) (src dst : address) (v : Z) (a : address) :
  default 0 (move src dst v b !! a) =
  default 0 (b !! a) - (if decide (a = src) then v else 0)
                     + (if decide (a = dst) then v else 0).
Proof.
  unfold move. rewrite !lookup_insert.
  repeat case_decide; subst; simpl; try lia; congruence.
Qed.

Lemma sum_amounts_app (ps qs : list Payment) :
  sum_amounts (ps ++ qs) = sum_amounts ps + sum_amounts qs.
Proof. induction ps as [| p ps IH]; simpl; [done |]. rewrite IH. lia. Qed.

Lemma sum_amounts_nonneg (ps : list Payment) :
  Forall (λ p, 0 ≤ amount p) ps → 0 ≤ sum_amounts ps.
Proof. induction 1; simpl; lia. Qed.

Lemma wf_batch_nonneg (ps : list Payment) :
  wf_batch ps → Forall (λ p, 0 ≤ amount p) ps.
Proof. intros H. eapply Forall_impl; [exact H |]. by intros p [[? _] _]. Qed.

Lemma valid_nonneg (ps : list Payment) :
  Forall valid_payment ps → Forall (λ p, 0 ≤ amount p) ps.
Proof.
  intros H. eapply Forall_impl; [exact H |].
  intros p [_ Hp]. pose proof MIN_AMOUNT_pos. simpl. lia.
Qed.

Lemma sum_amounts_take_le (ps : list Payment) (i : nat) :
  Forall (λ p, 0 ≤ amount p) ps → sum_amounts (take i ps) ≤ sum_amounts ps.
Proof.
  intros H. rewrite <- (take_drop i ps) at 2. rewrite sum_amounts_app.
  assert (0 ≤ sum_amounts (drop i ps)); [| lia].
  apply sum_amounts_nonneg. by apply Forall_drop.
Qed.

(** ** The two summation loops *)

Lemma estimate_loop_ok (ps : list Payment) : ∀ total,
  Forall (λ p, 0 ≤ amount p) ps →
  total + sum_amounts ps ≤ uint256_max →
  estimate_loop ps total = Ok (total + sum_amounts ps).
Proof.
  induction ps as [| p ps IH]; intros total Hnn Hle; simpl in *.
  - f_equal. lia.
  - inversion_clear Hnn as [| ? ? Hp Hps].
    pose proof (sum_amounts_nonneg _ Hps).
    rewrite checked_add_ok by lia. simpl.
    rewrite IH by (done || lia). f_equal. lia.
Qed.

Lemma estimate_loop_overflow (ps : list Payment) : ∀ total,
  Forall (λ p, 0 ≤ amount p) ps →
  total ≤ uint256_max →
  uint256_max < total + sum_amounts ps →
  estimate_loop ps total = Fail Overflow.
Proof.
  induction ps as [| p ps IH]; intros total Hnn Hle Hov; simpl in *.
  - lia.
  - inversion_clear Hnn as [| ? ? Hp Hps].
    destruct (decide (total + amount p ≤ uint256_max)) as [Hfit | Hfit].
    + rewrite checked_add_ok by done. simpl. apply IH; [done | done | lia].
    + rewrite checked_add_overflow by lia. done.
Qed.

(** The first loop of [batchPay] computes what [estimate_loop] computes. *)
Lemma validate_loop_estimate (ps : list Payment) : ∀ total t,
  validate_loop ps total = Ok t → estimate_loop ps total = Ok t.
Proof.
  induction ps as [| p ps IH]; intros total t H; simpl in *; [done |].
  destruct (require (bool_decide (recipient p ≠ 0)) _); simpl in H; [| done].
  destruct (require (bool_decide (MIN_AMOUNT ≤ amount p)) _); simpl in H; [| done].
  destruct (checked_add total (amount p)); simpl in *; [| done].
  by apply IH.
Qed.

Lemma validate_loop_inv (ps : list Payment) : ∀ total t,
  validate_loop ps total = Ok t →
  t = total + sum_amounts ps ∧ Forall valid_payment ps ∧
  (ps ≠ [] → t ≤ uint256_max).
Proof.
  induction ps as [| p ps IH]; intros total t H; simpl in *.
  - injection H as <-. split; [lia |]. split; [constructor | done].
  - destruct (require (bool_decide (recipient p ≠ 0)) _) as [[] |] eqn:E1;
      simpl in H; [| done].
    destruct (require (bool_decide (MIN_AMOUNT ≤ amount p)) _) as [[] |] eqn:E2;
      simpl in H; [| done].
    destruct (checked_add total (amount p)) as [t' |] eqn:E3; simpl in H; [| done].
    apply require_inv, bool_decide_eq_true in E1, E2.
    apply checked_add_inv in E3 as [-> Hfit].
    destruct (IH _ _ H) as (-> & Hps & Hmax).
    split; [lia |]. split; [by constructor |]. intros _.
    destruct ps as [| q qs]; [simpl; lia | by apply Hmax].
Qed.

Lemma validate_loop_ok (ps : list Payment) : ∀ total,
  Forall valid_payment ps →
  total + sum_amounts ps ≤ uint256_max →
  validate_loop ps total = Ok (total + sum_amounts ps).
Proof.
  induction ps as [| p ps IH]; intros total Hv Hle; simpl in *.
  - f_equal. lia.
  - inversion_clear Hv as [| ? ? [Hr Ha] Hps].
    pose proof (sum_amounts_nonneg _ (valid_nonneg _ Hps)).
    rewrite !bool_decide_eq_true_2 by done. simpl.
    rewrite checked_add_ok by lia. simpl.
    rewrite IH by (done || lia). f_equal. lia.
Qed.

(** ** The second loop *)

Lemma bind_run {A B : Type} (m : M A) (f : A → M B) (st : State) :
  (m ≫= f) st =
  match m st with
  | (Ok a, st') => f a st'
  | (Fail e, st') => (Fail e, st')
  end.
Proof. reflexivity. Qed.

(** One iteration of the second loop, when its counters do not overflow. *)
Lemma process_loop_cons w tx (p : Payment) (rest : list Payment) (i : nat)
    (l : Locals) (st : State) :
  (i < length (results l))%nat →
  successCount l + 1 ≤ uint256_max →
  failureCount l + 1 ≤ uint256_max →
  totalProcessed l + amount p ≤ uint256_max →
  let ok := (call_outcome w tx (recipient p) (amount p) st).1 in
  let r := {| success := ok; r_recipient := recipient p; r_amount := amount p |} in
  process_loop w tx (p :: rest) i l st =
  process_loop w tx rest (S i)
    {| results := <[i := r]> (results l);
       successCount := successCount l + (if ok then 1 else 0);
       failureCount := failureCount l + (if ok then 0 else 1);
       totalProcessed := totalProcessed l + (if ok then amount p else 0) |}
    (add_event (payment_event (msg_sender tx) i r)
       (after_call w tx AtPayment (recipient p) (amount p) st)).
Proof.
  intros Hi Hsc Hfc Htp ok r. subst ok r.
  unfold after_call. simpl. rewrite !bind_run. unfold external_call at 1.
  unfold lift, store_result. rewrite decide_True by done.
  destruct (call_outcome w tx (recipient p) (amount p) st) as [[] d] eqn:E; simpl.
  - rewrite ?Z.add_0_r.
    repeat (rewrite bind_run; simpl; rewrite ?checked_add_ok by done). done.
  - rewrite ?Z.add_0_r.
    repeat (rewrite bind_run; simpl; rewrite ?checked_add_ok by done). done.
Qed.

Lemma after_call_stats w tx s target v st :
  totalPaymentsProcessed (after_call w tx s target v st) = totalPaymentsProcessed st ∧
  totalVolumeProcessed (after_call w tx s target v st) = totalVolumeProcessed st ∧
  events (after_call w tx s target v st) = events st.
Proof.
  unfold after_call, external_call. simpl.
  by destruct (call_outcome w tx target v st).1.
Qed.

Lemma after_call_calls w tx s target v st :
  calls (after_call w tx s target v st) =
  calls st ++ [{| call_site := s; call_target := target; call_value := v;
                  call_ok := (call_outcome w tx target v st).1;
                  call_returned := (call_outcome w tx target v st).2 |}].
Proof.
  unfold after_call, external_call. simpl.
  by destruct (call_outcome w tx target v st).1.
Qed.

Lemma after_call_balance w tx s target v st a :
  balance (after_call w tx s target v st) a =
  balance st a +
  (if (call_outcome w tx target v st).1
   then (if decide (a = target) then v else 0) - (if decide (a = this tx) then v else 0)
   else 0).
Proof.
  unfold after_call, external_call, balance. simpl.
  destruct (call_outcome w tx target v st).1; simpl; [| lia].
  rewrite balance_move. lia.
Qed.

Lemma balance_add_event e st a : balance (add_event e st) a = balance st a.
Proof. reflexivity. Qed.

(** A successful call never targets the contract itself. *)
Lemma call_outcome_self w tx v st : (call_outcome w tx (this tx) v st).1 = false.
Proof. unfold call_outcome. by rewrite decide_True. Qed.

Lemma count_success_range (rs : list PaymentResult) :
  0 ≤ count_success rs ≤ Z.of_nat (length rs).
Proof. induction rs as [| r rs IH]; simpl; [lia |]. destruct (success r); lia. Qed.

Lemma count_success_failure (rs : list PaymentResult) :
  count_success rs + count_failure rs = Z.of_nat (length rs).
Proof. induction rs as [| r rs IH]; simpl; [lia |]. destruct (success r); lia. Qed.

Lemma paid_total_range (ps : list Payment) (rs : list PaymentResult) :
  Forall2 records ps rs → Forall (λ p, 0 ≤ amount p) ps →
  0 ≤ paid_total rs ≤ sum_amounts ps.
Proof.
  induction 1 as [| p r ps rs [_ Ha] _ IH]; intros Hnn; simpl; [lia |].
  inversion_clear Hnn as [| ? ? Hp Hps]. specialize (IH Hps).
  destruct (success r); rewrite ?Ha; lia.
Qed.

(** The second loop runs to its end whatever the outcomes of the calls
    are, provided its counters cannot overflow. *)
Lemma process_loop_run w tx (ps : list Payment) : ∀ (i : nat) (l : Locals) (st : State),
  (i + length ps ≤ length (results l))%nat →
  Forall (λ p, 0 ≤ amount p) ps →
  successCount l + Z.of_nat (length ps) ≤ uint256_max →
  failureCount l + Z.of_nat (length ps) ≤ uint256_max →
  totalProcessed l + sum_amounts ps ≤ uint256_max →
  ∃ rs l' st',
    process_loop w tx ps i l st = (Ok l', st') ∧
    Forall2 records ps rs ∧
    loop_effect tx i rs l l' st st'.
Proof.
  induction ps as [| p ps IH]; intros i l st Hi Hnn Hsc Hfc Htp.
  - exists [], l, st. split; [done |]. split; [constructor |].
    split; simpl; try done; try lia.
    + by rewrite app_nil_r.
    + exists []. by rewrite app_nil_r.
    + intros a. case_decide; lia.
  - inversion_clear Hnn as [| ? ? Hp Hps]. simpl in Hi, Hsc, Hfc, Htp.
    pose proof (sum_amounts_nonneg _ Hps) as Hsum.
    rewrite process_loop_cons by lia.
    set (ok := (call_outcome w tx (recipient p) (amount p) st).1).
    set (r := {| success := ok; r_recipient := recipient p; r_amount := amount p |}).
    set (l1 := {| results := <[i := r]> (results l);
                  successCount := successCount l + (if ok then 1 else 0) |}).
    set (st1 := add_event _ _).
    destruct (IH (S i) l1 st1) as (rs & l' & st' & Hrun & Hrec & Heff).
    { subst l1. simpl. rewrite length_insert. lia. }
    { done. }
    { subst l1. simpl. destruct ok; lia. }
    { subst l1. simpl. destruct ok; lia. }
    { subst l1. simpl. destruct ok; lia. }
    exists (r :: rs), l', st'. split; [done |].
    split; [constructor; [done | done] |].
    destruct Heff as [H1 H2 H3 H4 H5 H6 H7 H8 H9 (cs & H10 & H11) H12 H13].
    assert (ok = true → recipient p ≠ this tx) as Hself.
    { intros Eok E. subst ok. rewrite E, call_outcome_self in Eok. done. }
    pose proof (after_call_stats w tx AtPayment (recipient p) (amount p) st)
      as (S1 & S2 & S3).
    subst l1 st1.
    cbn [results successCount failureCount totalProcessed add_event events
         calls totalPaymentsProcessed totalVolumeProcessed] in *.
    rewrite length_insert in H1.
    split; simpl.
    + done.
    + intros j Hj. rewrite H2 by lia. apply list_lookup_insert_ne. lia.
    + intros [| k] r' Hk; simpl in Hk.
      * injection Hk as <-. rewrite Nat.add_0_r, H2 by lia.
        apply list_lookup_insert_eq. lia.
      * replace (i + S k)%nat with (S i + k)%nat by lia. by apply H3.
    + rewrite H4. fold ok. destruct ok; lia.
    + rewrite H5. fold ok. destruct ok; lia.
    + rewrite H6. fold ok. destruct ok; lia.
    + congruence.
    + congruence.
    + rewrite H9, S3, <- app_assoc. done.
    + rewrite after_call_calls in H10. rewrite <- app_assoc in H10.
      eexists. split; [exact H10 |]. constructor; [| done]. by repeat split.
    + intros a. rewrite H12, balance_add_event, after_call_balance. fold ok.
      destruct ok; simpl.
      * specialize (Hself eq_refl).
        repeat case_decide; subst; try lia; congruence.
      * repeat case_decide; lia.
    + rewrite H13. destruct ok; [| done].
      rewrite decide_False by auto. done.
Qed.

(** ** The structure of a run of [batchPay] *)

Lemma batchPay_body_invalid w tx ps st e :
  validation tx ps = Fail e → batchPay_body w tx ps st = (Fail e, st).
Proof.
  unfold validation, batchPay_body. rewrite !bind_run. unfold lift.
  destruct (validPayments ps) as [[] |]; simpl; [| by intros [= <-]].
  rewrite bind_run.
  destruct (validate_loop ps 0) as [t |]; simpl; [| by intros [= <-]].
  rewrite bind_run.
  destruct (require _ _) as [[] |]; simpl; [done | by intros [= <-]].
Qed.

Lemma batchPay_body_valid w tx ps st t :
  validation tx ps = Ok t →
  batchPay_body w tx ps st =
  match process_loop w tx ps 0 (initial_locals (length ps))
          (add_event (BatchPaymentInitiated (msg_sender tx)
                        (Z.of_nat (length ps)) t (block_timestamp tx)) st) with
  | (Ok l, st1) => finish w tx t l st1
  | (Fail e, st1) => (Fail e, st1)
  end.
Proof.
  unfold validation, batchPay_body. rewrite !bind_run. unfold lift.
  destruct (validPayments ps) as [[] |]; simpl; [| done].
  rewrite bind_run.
  destruct (validate_loop ps 0) as [t' |]; simpl; [| done].
  rewrite bind_run.
  destruct (require _ _) as [[] |]; simpl; [| done].
  intros [= ->]. rewrite !bind_run. unfold emit at 1.
  reflexivity.
Qed.

Lemma validPayments_inv ps :
  validPayments ps = Ok tt → (0 < length ps ≤ 100)%nat.
Proof.
  unfold validPayments.
  destruct (require (bool_decide (0 < _)) _) as [[] |] eqn:E1; simpl; [| done].
  intros E2. apply require_inv, bool_decide_eq_true in E1, E2.
  unfold MAX_RECIPIENTS in E2. lia.
Qed.

Lemma validation_inv tx ps t :
  validation tx ps = Ok t →
  (0 < length ps ≤ 100)%nat ∧ Forall valid_payment ps ∧
  t = sum_amounts ps ∧ t ≤ msg_value tx ∧ t ≤ uint256_max.
Proof.
  unfold validation.
  destruct (validPayments ps) as [[] |] eqn:E1; simpl; [| done].
  destruct (validate_loop ps 0) as [t' |] eqn:E2; simpl; [| done].
  destruct (require _ _) as [[] |] eqn:E3; simpl; [| done].
  intros [= ->].
  apply validPayments_inv in E1.
  apply validate_loop_inv in E2 as (E2 & Hv & Hmax).
  apply require_inv, bool_decide_eq_true in E3.
  repeat split; try lia; try done.
  apply Hmax. intros ->. simpl in E1. lia.
Qed.

(** The results of the second loop of a validated batch. *)
Lemma validated_loop_run w tx ps st t :
  validation tx ps = Ok t →
  ∃ rs l st1,
    process_loop w tx ps 0 (initial_locals (length ps)) st = (Ok l, st1) ∧
    results l = rs ∧ Forall2 records ps rs ∧
    loop_effect tx 0 rs (initial_locals (length ps)) l st st1.
Proof.
  intros Hv. apply validation_inv in Hv as (Hlen & Hvalid & -> & Hval & Hmax).
  pose proof uint256_max_pos as Hpos.
  assert (100 < uint256_max) as Hbig by reflexivity.
  destruct (process_loop_run w tx ps 0 (initial_locals (length ps)) st)
    as (rs & l & st1 & Hrun & Hrec & Heff); simpl.
  - unfold new_results. rewrite length_replicate. lia.
  - by apply valid_nonneg.
  - lia.
  - lia.
  - lia.
  - exists rs, l, st1. split; [done |]. split; [| by split].
    apply list_eq. intros k.
    pose proof (Forall2_length _ _ _ Hrec) as Hl.
    pose proof (le_length _ _ _ _ _ _ _ Heff) as Hlr.
    simpl in Hlr. unfold new_results in Hlr. rewrite length_replicate in Hlr.
    destruct (rs !! k) as [r |] eqn:Ek.
    + by apply (le_written _ _ _ _ _ _ _ Heff) in Ek.
    + apply lookup_ge_None in Ek. apply lookup_ge_None. lia.
Qed.

(** ** Statistics update and reconciliation *)

Lemma update_stats_ok (l : Locals) (st : State) :
  totalPaymentsProcessed st + successCount l ≤ uint256_max →
  totalVolumeProcessed st + totalProcessed l ≤ uint256_max →
  update_stats l st =
  (Ok tt, set_stats (totalPaymentsProcessed st + successCount l)
            (totalVolumeProcessed st + totalProcessed l) st).
Proof.
  intros H1 H2. unfold update_stats. rewrite checked_add_ok by done. simpl.
  by rewrite checked_add_ok by done.
Qed.

Lemma update_stats_inv (l : Locals) (st st' : State) :
  update_stats l st = (Ok tt, st') →
  st' = set_stats (totalPaymentsProcessed st + successCount l)
          (totalVolumeProcessed st + totalProcessed l) st ∧
  totalPaymentsProcessed st + successCount l ≤ uint256_max ∧
  totalVolumeProcessed st + totalProcessed l ≤ uint256_max.
Proof.
  unfold update_stats.
  destruct (checked_add (totalPaymentsProcessed st) _) as [n |] eqn:E1; [| done].
  simpl. destruct (checked_add (totalVolumeProcessed st) _) as [v |] eqn:E2; [| done].
  apply checked_add_inv in E1 as [-> ?], E2 as [-> ?]. by intros [= <-].
Qed.

Lemma update_stats_fail (l : Locals) (st st' : State) (e : Error) :
  update_stats l st = (Fail e, st') →
  e = Overflow ∧ calls st' = calls st ∧ events st' = events st ∧
  balances st' = balances st ∧
  (uint256_max < totalPaymentsProcessed st + successCount l ∨
   uint256_max < totalVolumeProcessed st + totalProcessed l).
Proof.
  unfold update_stats.
  destruct (checked_add (totalPaymentsProcessed st) _) as [n |] eqn:E1.
  - simpl. destruct (checked_add (totalVolumeProcessed st) _) as [v |] eqn:E2; [done |].
    apply checked_add_fail in E2 as [-> E2]. intros [= <- <-]. simpl.
    repeat (split; [done |]). by right.
  - apply checked_add_fail in E1 as [-> E1]. intros [= <- <-].
    repeat (split; [done |]). by left.
Qed.

Lemma external_call_run w tx s target v st :
  external_call w tx s target v st =
  (Ok (call_outcome w tx target v st), after_call w tx s target v st).
Proof. reflexivity. Qed.

Lemma reconcile_steps w tx t l :
  totalProcessed l ≤ t → t ≤ msg_value tx →
  reconcile w tx t l =
  (refund_step w tx AtRefund "Refund failed" (t - totalProcessed l);;
   refund_step w tx AtExcessRefund "Excess refund failed" (msg_value tx - t)).
Proof.
  intros H1 H2. unfold reconcile, refund_step.
  rewrite !checked_sub_ok by done. reflexivity.
Qed.

(** The effect of one return of value. *)
Lemma refund_step_run w tx s reason v st e0 :
  site_error s = Some (Revert reason) → site_error s = Some e0 →
  ∃ cs,
    calls (refund_step w tx s reason v st).2 = calls st ++ cs ∧
    totalPaymentsProcessed (refund_step w tx s reason v st).2 = totalPaymentsProcessed st ∧
    totalVolumeProcessed (refund_step w tx s reason v st).2 = totalVolumeProcessed st ∧
    events (refund_step w tx s reason v st).2 = events st ∧
    Forall (λ c, call_site c = s ∧ call_target c = msg_sender tx) cs ∧
    match (refund_step w tx s reason v st).1 with
    | Ok _ =>
        Forall (λ c, call_ok c = true) cs ∧
        map (λ c, (call_site c, call_value c)) cs =
          (if decide (0 < v) then [(s, v)] else []) ∧
        ∀ a, balance (refund_step w tx s reason v st).2 a =
             balance st a
             + (if decide (0 < v) then
                  (if decide (a = msg_sender tx) then v else 0)
                  - (if decide (a = this tx) then v else 0)
                else 0)
    | Fail e => e = e0 ∧ 0 < v ∧ ∃ c, cs = [c] ∧ call_ok c = false
    end.
Proof.
  intros Hs He0. rewrite Hs in He0. injection He0 as <-.
  unfold refund_step. case_decide as Hv.
  - rewrite bind_run, external_call_run. unfold lift. simpl.
    pose proof (after_call_stats w tx s (msg_sender tx) v st) as (S1 & S2 & S3).
    pose proof (after_call_calls w tx s (msg_sender tx) v st) as S4.
    eexists. split; [exact S4 |]. repeat (split; [done |]).
    split; [by repeat constructor |].
    destruct (call_outcome w tx (msg_sender tx) v st).1 eqn:E; simpl.
    + split; [by repeat constructor |]. split; [done |].
      intros a. rewrite after_call_balance, E. done.
    + split; [done |]. split; [done |]. eauto.
  - exists []. unfold mret, M_ret. simpl. rewrite app_nil_r.
    repeat match goal with |- _ ∧ _ => split; [first [done | constructor] |] end.
    intros a. lia.
Qed.

(** The effect of the reconciliation: it fails exactly when one of its
    calls fails, with the error of the place of that call. *)
Lemma reconcile_run w tx t l st :
  totalProcessed l ≤ t → t ≤ msg_value tx →
  ∃ cs,
    calls (reconcile w tx t l st).2 = calls st ++ cs ∧
    totalPaymentsProcessed (reconcile w tx t l st).2 = totalPaymentsProcessed st ∧
    totalVolumeProcessed (reconcile w tx t l st).2 = totalVolumeProcessed st ∧
    events (reconcile w tx t l st).2 = events st ∧
    Forall (λ c, call_site c ≠ AtPayment ∧ call_target c = msg_sender tx) cs ∧
    (∀ e, (reconcile w tx t l st).1 = Fail e ↔
          ∃ c, c ∈ cs ∧ call_ok c = false ∧ site_error (call_site c) = Some e) ∧
    ((reconcile w tx t l st).1 = Ok tt →
       Forall (λ c, call_ok c = true) cs ∧
       map (λ c, (call_site c, call_value c)) cs =
         refund_plan (t - totalProcessed l) (msg_value tx - t) ∧
       ∀ a, balance (reconcile w tx t l st).2 a =
            balance st a
            + (if decide (a = msg_sender tx) then msg_value tx - totalProcessed l else 0)
            - (if decide (a = this tx) then msg_value tx - totalProcessed l else 0)).
Proof.
  intros H1 H2. rewrite reconcile_steps by done. rewrite bind_run.
  destruct (refund_step_run w tx AtRefund "Refund failed"
              (t - totalProcessed l) st RefundFailed eq_refl eq_refl)
    as (cs1 & C1 & P1 & V1 & E1 & F1 & R1).
  destruct (refund_step w tx AtRefund "Refund failed" (t - totalProcessed l) st)
    as [[[] | e1] st1]; simpl in C1, P1, V1, E1, R1.
  - destruct R1 as (Ok1 & Plan1 & Bal1).
    destruct (refund_step_run w tx AtExcessRefund "Excess refund failed"
                (msg_value tx - t) st1 ExcessRefundFailed eq_refl eq_refl)
      as (cs2 & C2 & P2 & V2 & E2 & F2 & R2).
    destruct (refund_step w tx AtExcessRefund "Excess refund failed"
                (msg_value tx - t) st1)
      as [[[] | e2] st2]; simpl in C2, P2, V2, E2, R2 |- *.
    + destruct R2 as (Ok2 & Plan2 & Bal2).
      exists (cs1 ++ cs2). rewrite C2, C1, app_assoc.
      split; [done |]. split; [congruence |]. split; [congruence |].
      split; [congruence |]. split.
      { apply Forall_app. split.
        - eapply Forall_impl; [exact F1 |]. by intros c [-> ?].
        - eapply Forall_impl; [exact F2 |]. by intros c [-> ?]. }
      split.
      { intros e. split; [done |]. intros (c & Hin & Hf & _).
        assert (call_ok c = true); [| congruence].
        apply elem_of_app in Hin as [Hin | Hin];
          [ by apply (proj1 (Forall_forall _ _) Ok1)
          | by apply (proj1 (Forall_forall _ _) Ok2) ]. }
      intros _. split; [by apply Forall_app |]. split.
      { rewrite map_app, Plan1, Plan2. done. }
      intros a. rewrite Bal2, Bal1. repeat case_decide; lia.
    + destruct R2 as (-> & Hpos & c2 & -> & Hc2).
      apply Forall_cons in F2 as ((Hs2 & Ht2) & _).
      exists (cs1 ++ [c2]). rewrite C2, C1, app_assoc.
      split; [done |]. split; [congruence |]. split; [congruence |].
      split; [congruence |]. split.
      { apply Forall_app. split.
        - eapply Forall_impl; [exact F1 |]. by intros c [-> ?].
        - constructor; [| done]. by rewrite Hs2. }
      split; [| done].
      intros e. split.
      * intros [= <-]. exists c2. split; [| by rewrite Hs2].
        apply elem_of_app. right. by apply list_elem_of_singleton.
      * intros (c & Hin & Hf & He).
        apply elem_of_app in Hin as [Hin | Hin].
        -- apply (proj1 (Forall_forall _ _) Ok1) in Hin. congruence.
        -- apply list_elem_of_singleton in Hin as ->.
           rewrite Hs2 in He. simpl in He. congruence.
  - destruct R1 as (-> & Hpos & c1 & -> & Hc1).
    apply Forall_cons in F1 as ((Hs1 & Ht1) & _). simpl.
    exists [c1]. repeat (split; [done |]).
    split; [constructor; [by rewrite Hs1 | done] |].
    split; [| done].
    intros e. split.
    + intros [= <-]. exists c1. split; [by apply list_elem_of_singleton |].
      by rewrite Hs1.
    + intros (c & Hin & Hf & He).
      apply list_elem_of_singleton in Hin as ->.
      rewrite Hs1 in He. simpl in He. congruence.
Qed.

(** ** A run of the body of [batchPay] on a validated batch *)

Lemma finish_run w tx t l st :
  finish w tx t l st =
  match update_stats l st with
  | (Ok _, st2) =>
      match reconcile w tx t l
              (add_event (BatchPaymentCompleted (msg_sender tx) (successCount l)
                            (failureCount l) (totalProcessed l)) st2) with
      | (Ok _, st3) => (Ok (results l), st3)
      | (Fail e, st3) => (Fail e, st3)
      end
  | (Fail e, st2) => (Fail e, st2)
  end.
Proof.
  unfold finish. rewrite bind_run.
  destruct (update_stats l st) as [[[] | e] st2]; [| done].
  rewrite bind_run. unfold emit at 1. rewrite bind_run.
  by destruct (reconcile _ _ _ _ _) as [[[] | e] st3].
Qed.

Lemma body_run w tx ps st t :
  validation tx ps = Ok t →
  ∃ rs cs_pay cs_ref,
    settlement tx ps t st (batchPay_body w tx ps st).2
      (batchPay_body w tx ps st).1 rs cs_pay cs_ref.
Proof.
  intros Hv. rewrite (batchPay_body_valid _ _ _ _ _ Hv).
  set (st0 := add_event _ st).
  destruct (validated_loop_run w tx ps st0 t Hv)
    as (rs & l & st1 & -> & Hres & Hrec & Heff).
  apply validation_inv in Hv as (Hlen & Hvalid & -> & Hval & Hmax).
  destruct Heff as [_ _ _ Hsc Hfc Htp Hp Hvol Hev (cs & Hcs & Hcarry) Hbal Hself].
  simpl in Hsc, Hfc, Htp. subst st0. simpl in Hp, Hvol, Hev, Hcs.
  pose proof (paid_total_range ps rs Hrec (valid_nonneg _ Hvalid)) as Hrange.
  exists rs, cs. rewrite finish_run.
  destruct (update_stats l st1) as [[[] | e] st2] eqn:Eu.
  - apply update_stats_inv in Eu as (-> & Hfit1 & Hfit2).
    set (st3 := add_event _ _).
    destruct (reconcile_run w tx (sum_amounts ps) l st3)
      as (cr & C & P & V & E & F & Hf & Hok); [lia | lia |].
    exists cr.
    destruct (reconcile w tx (sum_amounts ps) l st3) as [[[] | e] st4];
      simpl in C, P, V, E, Hf, Hok |- *.
    + destruct (Hok eq_refl) as (Hallok & Hplan & Hb).
      split; try done.
      * subst st3. simpl in C. rewrite C, Hcs, <- app_assoc. done.
      * intros e. split; [done |]. intros [(-> & _ & Hov) | Hc].
        -- rewrite Hp, Hvol in *. lia.
        -- by apply Hf in Hc.
      * intros rs' [= <-]. subst st3. simpl in P, V, E.
        split; [done |]. split; [rewrite P, Hp; lia |].
        split; [rewrite V, Hvol; lia |].
        split.
        { rewrite E, Hev, Hsc, Hfc, Htp, <- !app_assoc. simpl.
          rewrite !Z.add_0_l. done. }
        split; [done |]. split; [by rewrite Hplan, Htp |].
        intros a. rewrite Hb. unfold balance at 1. simpl.
        fold (balance st1 a). rewrite Hbal. unfold balance at 1. simpl.
        fold (balance st a). rewrite Htp. repeat case_decide; lia.
    + split; try done.
      * subst st3. simpl in C. rewrite C, Hcs, <- app_assoc. done.
      * intros e'. split.
        -- intros [= <-]. right. by apply Hf.
        -- intros [(-> & -> & _) | Hc].
           ++ assert (Fail (A := ()) e = Fail e) as Hc by done.
              apply Hf in Hc as (c & Hin & _). by apply elem_of_nil in Hin.
           ++ apply Hf in Hc. by injection Hc as ->.
  - apply update_stats_fail in Eu as (-> & Hc & _ & _ & Hov).
    exists []. split; simpl; try done.
    + rewrite app_nil_r, Hc. done.
    + intros e. split.
      * intros [= <-]. left. rewrite Hp, Hvol in Hov. split; [done |].
        split; [done |]. lia.
      * intros [(-> & _) | (c & Hin & _)]; [done |]. by apply elem_of_nil in Hin.
Qed.

(** ** Calls of [batchPay] *)

Lemma batchPay_invalid w tx ps st e :
  validation tx ps = Fail e → batchPay w tx ps st = (Fail e, st).
Proof.
  intros Hv. unfold batchPay, transact.
  by rewrite (batchPay_body_invalid _ _ _ _ _ Hv).
Qed.

Lemma receive_value_balance tx st a :
  balance (receive_value tx st) a =
  balance st a - (if decide (a = msg_sender tx) then msg_value tx else 0)
              + (if decide (a = this tx) then msg_value tx else 0).
Proof. unfold receive_value, balance. simpl. apply balance_move. Qed.

(** A completed call is a run of the body on a validated batch. *)
Lemma batchPay_completed w tx ps st rs st' :
  batchPay w tx ps st = (Ok rs, st') →
  ∃ t cs_pay cs_ref,
    validation tx ps = Ok t ∧
    settlement tx ps t (receive_value tx st) st' (Ok rs) rs cs_pay cs_ref.
Proof.
  intros Hrun. destruct (validation tx ps) as [t | e] eqn:Hv.
  - destruct (body_run w tx ps (receive_value tx st) t Hv)
      as (rs0 & cs_pay & cs_ref & Hs).
    unfold batchPay, transact in Hrun.
    destruct (batchPay_body w tx ps (receive_value tx st)) as [[rs1 | e] st1];
      simpl in Hs; [| done].
    injection Hrun as -> ->.
    destruct (s_ok _ _ _ _ _ _ _ _ _ Hs rs eq_refl) as (-> & _).
    by exists t, cs_pay, cs_ref.
  - rewrite (batchPay_invalid _ _ _ _ _ Hv) in Hrun. done.
Qed.

Lemma records_lookup (ps : list Payment) (rs : list PaymentResult) :
  Forall2 records ps rs →
  length rs = length ps ∧
  ∀ i p, ps !! i = Some p →
    ∃ r, rs !! i = Some r ∧ r_recipient r = recipient p ∧ r_amount r = amount p.
Proof.
  intros H. split; [symmetry; by eapply Forall2_length |].
  intros i p Hp.
  destruct (Forall2_lookup_l _ _ _ _ _ H Hp) as (r & Hr & Hrec & Ham).
  eauto.
Qed.

(** ** The boundary scenarios of the specification *)

(** One payment, accepted, with exactly its amount attached. *)
Example scenario_single :
  observe demo_state
    (batchPay accept_all (demo_tx (10 ^ 18))
       [ {| recipient := 11; amount := 10 ^ 18 |} ] demo_state) =
  (Ok [ {| success := true; r_recipient := 11; r_amount := 10 ^ 18 |} ],
   (1, 10 ^ 18), [ (AtPayment, 10 ^ 18, true) ]).
Proof. vm_compute. reflexivity. Qed.

(** Three payments, the second recipient rejects. *)
Example scenario_one_failure :
  observe demo_state
    (batchPay (rejecting [12]) (demo_tx (sum_amounts demo_batch)) demo_batch
       demo_state) =
  (Ok demo_results, (2, 10 ^ 18 + 10 ^ 15),
   [ (AtPayment, 10 ^ 18, true); (AtPayment, 2 * 10 ^ 18, false);
     (AtPayment, 10 ^ 15, true); (AtRefund, 2 * 10 ^ 18, true) ]).
Proof. vm_compute. reflexivity. Qed.

(** One wei less than the sum of the amounts. *)
Example scenario_insufficient :
  observe demo_state
    (batchPay accept_all (demo_tx (sum_amounts demo_batch - 1)) demo_batch
       demo_state) =
  (Fail InsufficientFunds, (0, 0), []).
Proof. vm_compute. reflexivity. Qed.

(** More than the sum of the amounts: the excess goes back. *)
Example scenario_excess :
  observe demo_state
    (batchPay accept_all (demo_tx (sum_amounts demo_batch + 5)) demo_batch
       demo_state) =
  (Ok [ {| success := true; r_recipient := 11; r_amount := 10 ^ 18 |};
        {| success := true; r_recipient := 12; r_amount := 2 * 10 ^ 18 |};
        {| success := true; r_recipient := 13; r_amount := 10 ^ 15 |} ],
   (3, sum_amounts demo_batch),
   [ (AtPayment, 10 ^ 18, true); (AtPayment, 2 * 10 ^ 18, true);
     (AtPayment, 10 ^ 15, true); (AtExcessRefund, 5, true) ]).
Proof. vm_compute. reflexivity. Qed.

(** The empty batch. *)
Example scenario_empty :
  observe demo_state (batchPay accept_all (demo_tx (10 ^ 18)) [] demo_state) =
  (Fail EmptyBatch, (0, 0), []).
Proof. vm_compute. reflexivity. Qed.

(** A payment to the contract itself fails: its [receive] reverts. *)
Example scenario_self_payment :
  observe demo_state
    (batchPay accept_all (demo_tx (10 ^ 18))
       [ {| recipient := 1000; amount := 10 ^ 18 |} ] demo_state) =
  (Ok [ {| success := false; r_recipient := 1000; r_amount := 10 ^ 18 |} ],
   (0, 0), [ (AtPayment, 10 ^ 18, false); (AtRefund, 10 ^ 18, true) ]).
Proof. vm_compute. reflexivity. Qed.

(** ** C5: one result per payment, in input order *)

Lemma refund_step_accepts w tx s reason v st :
  msg_sender tx ≠ this tx →
  (∀ k v', (w k (msg_sender tx) v').1 = true) →
  v ≤ balance st (this tx) →
  (refund_step w tx s reason v st).1 = Ok tt.
Proof.
  intros Hne Hw Hbal. unfold refund_step. case_decide; [| done].
  rewrite bind_run, external_call_run. unfold lift, call_outcome. simpl.
  destruct (decide (msg_sender tx = this tx)); [done |].
  destruct (decide (balance st (this tx) < v)); [lia |].
  by rewrite Hw.
Qed.

(** The reconciliation succeeds when the sender accepts value and the
    contract holds what it has to return. *)
Lemma reconcile_accepts w tx t l st :
  totalProcessed l ≤ t → t ≤ msg_value tx →
  msg_sender tx ≠ this tx →
  (∀ k v, (w k (msg_sender tx) v).1 = true) →
  msg_value tx - totalProcessed l ≤ balance st (this tx) →
  (reconcile w tx t l st).1 = Ok tt.
Proof.
  intros H1 H2 Hne Hw Hbal. rewrite reconcile_steps by done. rewrite bind_run.
  pose proof (refund_step_accepts w tx AtRefund "Refund failed"
                (t - totalProcessed l) st Hne Hw ltac:(lia)) as Hfirst.
  destruct (refund_step_run w tx AtRefund "Refund failed"
              (t - totalProcessed l) st RefundFailed eq_refl eq_refl)
    as (cs1 & _ & _ & _ & _ & _ & R1).
  destruct (refund_step w tx AtRefund "Refund failed" (t - totalProcessed l) st)
    as [[[] | e1] st1]; simpl in Hfirst, R1; [| done].
  destruct R1 as (_ & _ & Hb).
  apply refund_step_accepts; [done | done |].
  rewrite Hb. repeat case_decide; try lia; congruence.
Qed.

(** A call of [batchPay] on a validated batch completes when the counters
    have room, the sender is not the contract and accepts value, and the
    balance of the contract is not negative. *)
Lemma batchPay_completes w tx ps st t :
  validation tx ps = Ok t →
  totalPaymentsProcessed st + Z.of_nat (length ps) ≤ uint256_max →
  totalVolumeProcessed st + t ≤ uint256_max →
  msg_sender tx ≠ this tx →
  0 ≤ balance st (this tx) →
  (∀ k v, (w k (msg_sender tx) v).1 = true) →
  ∃ rs st', batchPay w tx ps st = (Ok rs, st').
Proof.
  intros Hv Hpay Hvol Hne Hbal Hw.
  unfold batchPay, transact. rewrite (batchPay_body_valid _ _ _ _ _ Hv).
  set (st0 := add_event _ _).
  destruct (validated_loop_run w tx ps st0 t Hv)
    as (rs & l & st1 & -> & Hres & Hrec & Heff).
  apply validation_inv in Hv as (Hlen & Hvalid & -> & Hval & Hmax).
  destruct Heff as [_ _ _ Hsc _ Htp HP HV _ _ Hb Hself].
  simpl in Hsc, Htp. subst st0. simpl in HP, HV.
  pose proof (paid_total_range ps rs Hrec (valid_nonneg _ Hvalid)) as Hrange.
  pose proof (count_success_range rs) as Hcount.
  pose proof (Forall2_length _ _ _ Hrec) as Hl.
  rewrite finish_run, update_stats_ok by lia.
  set (st3 := add_event _ _).
  assert ((reconcile w tx (sum_amounts ps) l st3).1 = Ok tt) as Hrec_ok.
  { apply reconcile_accepts; [lia | lia | done | done |].
    subst st3. rewrite balance_add_event.
    unfold balance at 1. simpl. fold (balance st1 (this tx)).
    rewrite Hb, balance_add_event, receive_value_balance, Hself.
    repeat case_decide; try lia; congruence. }
  destruct (reconcile w tx (sum_amounts ps) l st3) as [[[] | e] st4];
    simpl in Hrec_ok; [eauto | done].
Qed.

(** C5. For a batch that passes validation: when [batchPay] returns, the
    results are as many as the payments of the batch, and the result of
    index [i] carries the recipient and the amount of the payment of index
    [i]; and [batchPay] does return when the statistics counters have room
    and the sender (who is not the contract) accepts the value returned to
    it. *)
Theorem batchPay_results w tx ps st t :
  validation tx ps = Ok t →
  (∀ rs st', batchPay w tx ps st = (Ok rs, st') →
     length rs = length ps ∧
     ∀ i p, ps !! i = Some p →
       ∃ r, rs !! i = Some r ∧ r_recipient r = recipient p ∧
            r_amount r = amount p) ∧
  (totalPaymentsProcessed st + Z.of_nat (length ps) ≤ uint256_max →
   totalVolumeProcessed st + t ≤ uint256_max →
   msg_sender tx ≠ this tx → 0 ≤ balance st (this tx) →
   (∀ k v, (w k (msg_sender tx) v).1 = true) →
   ∃ rs st', batchPay w tx ps st = (Ok rs, st')).
Proof.
  intros Hv. split.
  - intros rs st' Hrun.
    destruct (batchPay_completed _ _ _ _ _ _ Hrun) as (t' & cs_pay & cs_ref & _ & Hs).
    apply records_lookup. exact (s_records _ _ _ _ _ _ _ _ _ Hs).
  - by apply batchPay_completes.
Qed.

Lemma batchPay_results_witness :
  length demo_results = length demo_batch ∧
  ∀ i p, demo_batch !! i = Some p →
    ∃ r, demo_results !! i = Some r ∧
         r_recipient r = recipient p ∧ r_amount r = amount p.
Proof.
  apply (proj1 (batchPay_results (rejecting [12]) (demo_tx (4 * 10 ^ 18)) demo_batch
                  demo_state (sum_amounts demo_batch) eq_refl)
           demo_results
           (batchPay (rejecting [12]) (demo_tx (4 * 10 ^ 18)) demo_batch
              demo_state).2).
  vm_compute. reflexivity.
Defined.

(** ** C1: conservation of the value attached *)

(** C1. In a call of [batchPay] that completes, with [totalProcessed] the
    sum of the amounts of the successful results, [failedAmount =
    totalRequired - totalProcessed] and [excess = msg.value - totalRequired]:
    the three add up to [msg.value]; after the payments the contract makes
    exactly the returns of [failedAmount] and of [excess] that are not zero,
    to the sender, and they succeed; and every account ends with what it
    had, plus what it was paid, minus, for the sender, [totalProcessed].
    The contract itself keeps nothing. *)
Theorem batchPay_conservation w tx ps st rs st' :
  batchPay w tx ps st = (Ok rs, st') →
  let totalRequired := sum_amounts ps in
  let totalProcessed := paid_total rs in
  let failedAmount := totalRequired - totalProcessed in
  let excess := msg_value tx - totalRequired in
  0 ≤ failedAmount ∧ 0 ≤ excess ∧
  totalProcessed + failedAmount + excess = msg_value tx ∧
  (∃ cs_pay cs_ref,
     calls st' = calls st ++ cs_pay ++ cs_ref ∧
     Forall2 carries_out rs cs_pay ∧
     Forall (λ c, call_target c = msg_sender tx ∧ call_ok c = true) cs_ref ∧
     map (λ c, (call_site c, call_value c)) cs_ref = refund_plan failedAmount excess) ∧
  (∀ a, balance st' a =
        balance st a + paid_to a rs
        - (if decide (a = msg_sender tx) then totalProcessed else 0)) ∧
  (msg_sender tx ≠ this tx → balance st' (this tx) = balance st (this tx)).
Proof.
  intros Hrun.
  destruct (batchPay_completed _ _ _ _ _ _ Hrun)
    as (t & cs_pay & cs_ref & Hv & [Hrec Hpay Hself Hcalls Href _ Hok]).
  apply validation_inv in Hv as (Hlen & Hvalid & -> & Hval & Hmax).
  destruct (Hok rs eq_refl) as (_ & _ & _ & _ & Hallok & Hplan & Hbal).
  pose proof (paid_total_range ps rs Hrec (valid_nonneg _ Hvalid)) as Hrange.
  assert (∀ a, balance st' a =
               balance st a + paid_to a rs
               - (if decide (a = msg_sender tx) then paid_total rs else 0)) as Hledger.
  { intros a. rewrite Hbal, receive_value_balance. repeat case_decide; lia. }
  simpl. split; [lia |]. split; [lia |]. split; [lia |]. split; [| split].
  - exists cs_pay, cs_ref. split; [done |]. split; [done |]. split; [| done].
    apply Forall_forall. intros c Hc. split.
    + by apply (proj1 (Forall_forall _ _) Href c Hc).
    + by apply (proj1 (Forall_forall _ _) Hallok c Hc).
  - done.
  - intros Hne. rewrite Hledger, Hself. rewrite decide_False by done. lia.
Qed.

Lemma batchPay_conservation_witness :
  paid_total demo_results + (sum_amounts demo_batch - paid_total demo_results)
  + (4 * 10 ^ 18 - sum_amounts demo_batch) = 4 * 10 ^ 18.
Proof.
  refine (proj1 (proj2 (proj2
    (batchPay_conservation (rejecting [12]) (demo_tx (4 * 10 ^ 18))
       demo_batch demo_state demo_results
       (batchPay (rejecting [12]) (demo_tx (4 * 10 ^ 18)) demo_batch
          demo_state).2 _)))).
  vm_compute. reflexivity.
Defined.

(** ** C6: the aggregate statistics *)

(** The second loop never writes the statistics, whatever it does. *)
Lemma process_loop_stats w tx (ps : list Payment) : ∀ (i : nat) (l : Locals) (st : State),
  getStats (process_loop w tx ps i l st).2 = getStats st.
Proof.
  induction ps as [| p ps IH]; intros i l st; [done |].
  simpl. rewrite bind_run, external_call_run.
  assert (getStats (after_call w tx AtPayment (recipient p) (amount p) st) =
          getStats st) as S1.
  { pose proof (after_call_stats w tx AtPayment (recipient p) (amount p) st)
      as (S1 & S2 & _). unfold getStats. by rewrite S1, S2. }
  set (st1 := after_call _ _ _ _ _ _) in *.
  rewrite bind_run. unfold lift at 1.
  destruct (store_result _ _ _) as [rs | e]; [| done].
  rewrite bind_run.
  destruct (call_outcome w tx (recipient p) (amount p) st).1.
  - rewrite bind_run. unfold lift at 1.
    destruct (checked_add (successCount l) 1) as [sc | e]; [| done].
    rewrite bind_run. unfold lift at 1.
    destruct (checked_add (totalProcessed l) (amount p)) as [tp | e]; [| done].
    rewrite bind_run. unfold emit at 1. unfold mret at 1, M_ret at 1.
    rewrite IH. exact S1.
  - rewrite bind_run. unfold lift at 1.
    destruct (checked_add (failureCount l) 1) as [fc | e]; [| done].
    rewrite bind_run. unfold emit at 1. unfold mret at 1, M_ret at 1.
    rewrite IH. exact S1.
Qed.

Lemma execute_batchPay w tx ps st :
  execute w tx (CallBatchPay ps) st =
  match batchPay w tx ps st with
  | (Ok rs, st') => (Ok (RetResults rs), st')
  | (Fail e, st') => (Fail e, st')
  end.
Proof.
  unfold execute, batchPay, transact, dispatch. rewrite bind_run.
  by destruct (batchPay_body w tx ps (receive_value tx st)) as [[rs | e] st'].
Qed.

Lemma same_state_refl st : same_state st st.
Proof. by repeat split. Qed.

Lemma same_state_receive_zero tx st :
  msg_value tx = 0 → same_state st (receive_value tx st).
Proof.
  intros E. split; [done |]. split; [done |]. split; [| done].
  intros a. rewrite receive_value_balance, E. repeat case_decide; lia.
Qed.

(** A call of a function that is not payable and only reads the state. *)
Lemma transact_view {A : Type} (f : State → A) (g : A → Returned) tx st :
  same_state st
    (transact (nonpayable tx;; x ← view f; mret (g x)) tx st).2.
Proof.
  unfold transact. rewrite bind_run. unfold nonpayable, lift.
  destruct (require _ _) as [[] |] eqn:E; simpl; [| apply same_state_refl].
  apply require_inv, bool_decide_eq_true in E.
  by apply same_state_receive_zero.
Qed.

(** Every call but a completed [batchPay] leaves the state as it was. *)
Lemma execute_other w tx c st :
  match c with
  | CallBatchPay _ => True
  | _ => same_state st (execute w tx c st).2
  end.
Proof.
  destruct c as [ps | ps | | | | | | |]; [done | | | | | | | |]; unfold execute, dispatch.
  - unfold transact. rewrite bind_run. unfold nonpayable, lift.
    destruct (require _ _) as [[] |] eqn:E; simpl; [| apply same_state_refl].
    apply require_inv, bool_decide_eq_true in E. rewrite bind_run.
    destruct (estimateBatchCost ps); simpl; [| apply same_state_refl].
    by apply same_state_receive_zero.
  - apply (transact_view getStats (λ s, RetStats s.1 s.2)).
  - apply (transact_view totalPaymentsProcessed RetUint).
  - apply (transact_view totalVolumeProcessed RetUint).
  - apply (transact_view (λ _, MIN_AMOUNT) RetUint).
  - apply (transact_view (λ _, MAX_RECIPIENTS) RetUint).
  - apply same_state_refl.
  - apply same_state_refl.
Qed.

Lemma batchPay_failed w tx ps st e st' :
  batchPay w tx ps st = (Fail e, st') → st' = st.
Proof.
  unfold batchPay, transact.
  destruct (batchPay_body w tx ps (receive_value tx st)) as [[rs | e'] st1];
    [done | by intros [= _ <-]].
Qed.

(** The effect of one call on the statistics. *)
Lemma execute_stats w tx c st :
  (totalPaymentsProcessed st ≤ totalPaymentsProcessed (execute w tx c st).2 ∧
   totalVolumeProcessed st ≤ totalVolumeProcessed (execute w tx c st).2) ∧
  match c, (execute w tx c st).1 with
  | CallBatchPay ps, Ok (RetResults rs) =>
      totalPaymentsProcessed (execute w tx c st).2 =
        totalPaymentsProcessed st + count_success rs ∧
      totalVolumeProcessed (execute w tx c st).2 =
        totalVolumeProcessed st + paid_total rs ∧
      0 ≤ count_success rs ≤ Z.of_nat (length ps) ∧
      0 ≤ paid_total rs ≤ sum_amounts ps ∧
      sum_amounts ps ≤ msg_value tx
  | _, _ =>
      totalPaymentsProcessed (execute w tx c st).2 = totalPaymentsProcessed st ∧
      totalVolumeProcessed (execute w tx c st).2 = totalVolumeProcessed st
  end.
Proof.
  pose proof (execute_other w tx c st) as Hother.
  destruct c as [ps | ps | | | | | | |];
    try (destruct Hother as (H1 & H2 & _); split; [lia | by split]).
  rewrite execute_batchPay.
  destruct (batchPay w tx ps st) as [[rs | e] st'] eqn:E; simpl.
  - destruct (batchPay_completed _ _ _ _ _ _ E)
      as (t & cs_pay & cs_ref & Hv & [Hrec _ _ _ _ _ Hok]).
    apply validation_inv in Hv as (_ & Hvalid & -> & Hval & _).
    destruct (Hok rs eq_refl) as (_ & HP & HV & _).
    pose proof (paid_total_range ps rs Hrec (valid_nonneg _ Hvalid)).
    pose proof (count_success_range rs).
    pose proof (Forall2_length _ _ _ Hrec).
    unfold receive_value in HP, HV. simpl in HP, HV.
    split; [lia |]. repeat split; try done; lia.
  - apply batchPay_failed in E as ->. split; [lia | done].
Qed.

Lemma run_stats w (cs : list (Tx * Call)) : ∀ st,
  totalPaymentsProcessed st ≤ totalPaymentsProcessed (run w cs st) ∧
  totalVolumeProcessed st ≤ totalVolumeProcessed (run w cs st).
Proof.
  induction cs as [| [tx c] cs IH]; intros st; simpl; [lia |].
  destruct (execute_stats w tx c st) as [[H1 H2] _].
  destruct (IH (execute w tx c st).2) as [H3 H4]. unfold run in *. simpl in *. lia.
Qed.

(** C6. Whatever call the contract receives: the two counters never
    decrease; a call of [batchPay] that completes adds to
    [totalPaymentsProcessed] the number of successful results and to
    [totalVolumeProcessed] the sum of their amounts, which is at most the sum
    of the amounts of the batch and so at most [msg.value]; every other
    call, and every call that fails, leaves both counters as they were.
    The second loop itself never writes the counters: they are updated
    once, after it.  So the counters never decrease over any sequence of
    calls. *)
Theorem statistics_updates w tx c st :
  let r := (execute w tx c st).1 in
  let st' := (execute w tx c st).2 in
  (totalPaymentsProcessed st ≤ totalPaymentsProcessed st' ∧
   totalVolumeProcessed st ≤ totalVolumeProcessed st') ∧
  match c, r with
  | CallBatchPay ps, Ok (RetResults rs) =>
      totalPaymentsProcessed st' = totalPaymentsProcessed st + count_success rs ∧
      totalVolumeProcessed st' = totalVolumeProcessed st + paid_total rs ∧
      0 ≤ count_success rs ≤ Z.of_nat (length ps) ∧
      0 ≤ paid_total rs ≤ sum_amounts ps ∧
      sum_amounts ps ≤ msg_value tx
  | _, _ =>
      totalPaymentsProcessed st' = totalPaymentsProcessed st ∧
      totalVolumeProcessed st' = totalVolumeProcessed st
  end ∧
  (∀ ps i l st0, getStats (process_loop w tx ps i l st0).2 = getStats st0) ∧
  (∀ cs, totalPaymentsProcessed st ≤ totalPaymentsProcessed (run w cs st) ∧
         totalVolumeProcessed st ≤ totalVolumeProcessed (run w cs st)).
Proof.
  simpl. destruct (execute_stats w tx c st) as [H1 H2].
  split; [exact H1 |]. split; [by destruct c |]. split.
  - intros. apply process_loop_stats.
  - intros cs. apply run_stats.
Qed.

(** ** C9: value only enters through batchPay *)

Lemma transact_nonpayable {A : Type} (body : M A) tx st :
  msg_value tx = 0 ∨ ∃ e, transact (nonpayable tx;; body) tx st = (Fail e, st).
Proof.
  destruct (decide (msg_value tx = 0)) as [E | E]; [by left | right].
  unfold transact. rewrite bind_run. unfold nonpayable, lift.
  rewrite bool_decide_eq_false_2 by done. simpl. eauto.
Qed.

(** C9. A plain transfer of value to the contract runs [receive], which
    reverts, and a call of a function the contract does not have runs
    [fallback], which reverts; every call other than [batchPay] leaves the
    statistics and the balance of every account, the contract's included,
    as they were, and reverts when it carries value. *)
Theorem value_only_through_batchPay w tx c st :
  execute w tx CallPlainTransfer st = (Fail (Revert "Use batchPay function"), st) ∧
  execute w tx CallUnknown st = (Fail (Revert "Function does not exist"), st) ∧
  match c with
  | CallBatchPay _ => True
  | _ => same_state st (execute w tx c st).2 ∧
         (msg_value tx = 0 ∨ ∃ e, execute w tx c st = (Fail e, st))
  end.
Proof.
  split; [done |]. split; [done |].
  pose proof (execute_other w tx c st) as Hother.
  destruct c as [ps | ps | | | | | | |]; [done | | | | | | | |];
    (split; [exact Hother |]); unfold execute, dispatch;
    try apply transact_nonpayable; right; eauto.
Qed.

(** ** C3: input errors *)

Lemma validate_loop_fail (ps : list Payment) : ∀ total e,
  total ≤ uint256_max →
  validate_loop ps total = Fail e ↔
  ∃ i p, ps !! i = Some p ∧ Forall valid_payment (take i ps) ∧
         total + sum_amounts (take i ps) ≤ uint256_max ∧
         check_fails p (total + sum_amounts (take i ps)) e.
Proof.
  induction ps as [| q ps IH]; intros total e Htot; simpl.
  - split; [done |]. by intros (i & p & Hp & _).
  - destruct (decide (recipient q = 0)) as [Hr | Hr].
    { rewrite (bool_decide_eq_false_2 (recipient q ≠ 0)) by (intros Hn; by apply Hn).
      simpl. split.
      - intros [= <-]. exists 0%nat, q. simpl.
        split; [done |]. split; [constructor |]. split; [lia |]. by left.
      - intros ([| i] & p & Hp & Hv & Hs & Hc); simpl in *.
        + injection Hp as <-. destruct Hc as [[_ ->] | [[? _] | [? _]]]; done.
        + inversion_clear Hv as [| ? ? [? _] _]. done. }
    rewrite (bool_decide_eq_true_2 (recipient q ≠ 0)) by done. simpl.
    destruct (decide (MIN_AMOUNT ≤ amount q)) as [Ha | Ha].
    2: { rewrite (bool_decide_eq_false_2 (MIN_AMOUNT ≤ amount q)) by done.
      simpl. split.
      - intros [= <-]. exists 0%nat, q. simpl.
        split; [done |]. split; [constructor |]. split; [lia |].
        right. left. repeat split; [done | lia].
      - intros ([| i] & p & Hp & Hv & Hs & Hc); simpl in *.
        + injection Hp as <-.
          destruct Hc as [[? _] | [(_ & _ & ->) | (_ & ? & _)]]; done.
        + inversion_clear Hv as [| ? ? [_ ?] _]. done. }
    rewrite (bool_decide_eq_true_2 (MIN_AMOUNT ≤ amount q)) by done. simpl.
    destruct (decide (total + amount q ≤ uint256_max)) as [Hfit | Hfit].
    2: { rewrite checked_add_overflow by lia. simpl. split.
      - intros [= <-]. exists 0%nat, q. simpl.
        split; [done |]. split; [constructor |]. split; [lia |].
        right. right. repeat split; [done | done | lia].
      - intros ([| i] & p & Hp & Hv & Hs & Hc); simpl in *.
        + injection Hp as <-.
          destruct Hc as [[? _] | [(_ & ? & _) | (_ & _ & _ & ->)]];
            [done | lia | done].
        + inversion_clear Hv as [| ? ? _ Hv'].
          pose proof (sum_amounts_nonneg _ (valid_nonneg _ Hv')). lia. }
    rewrite checked_add_ok by done. simpl. rewrite IH by done. split.
    + intros (i & p & Hp & Hv & Hs & Hc). exists (S i), p. simpl.
      split; [done |]. split; [by constructor |].
      rewrite Z.add_assoc. split; [lia | done].
    + intros ([| i] & p & Hp & Hv & Hs & Hc); simpl in *.
      * injection Hp as <-. rewrite Z.add_0_r in Hc.
        destruct Hc as [[? _] | [(_ & ? & _) | (_ & _ & ? & _)]];
          [done | lia | lia].
      * inversion_clear Hv as [| ? ? _ Hv'].
        rewrite Z.add_assoc in Hs, Hc. exists i, p. done.
Qed.

Lemma validation_fail tx ps e :
  validation tx ps = Fail e ↔
  (length ps = 0%nat ∧ e = EmptyBatch) ∨
  ((100 < length ps)%nat ∧ e = BatchTooLarge) ∨
  ((0 < length ps ≤ 100)%nat ∧
   ∃ i p, reached ps i p ∧ check_fails p (sum_amounts (take i ps)) e) ∨
  ((0 < length ps ≤ 100)%nat ∧ Forall valid_payment ps ∧
   sum_amounts ps ≤ uint256_max ∧ msg_value tx < sum_amounts ps ∧
   e = InsufficientFunds).
Proof.
  unfold validation, validPayments.
  destruct (decide (length ps = 0%nat)) as [H0 | H0].
  { rewrite (bool_decide_eq_false_2 (0 < Z.of_nat (length ps))) by lia. simpl. split.
    - intros [= <-]. by left.
    - intros [[_ ->] | [[? _] | [[? _] | [? _]]]]; [done | lia | lia | lia]. }
  rewrite (bool_decide_eq_true_2 (0 < Z.of_nat (length ps))) by lia. simpl.
  destruct (decide (100 < length ps)%nat) as [H1 | H1].
  { rewrite (bool_decide_eq_false_2 (Z.of_nat (length ps) ≤ MAX_RECIPIENTS))
      by (unfold MAX_RECIPIENTS; lia). simpl. split.
    - intros [= <-]. right. by left.
    - intros [[? _] | [[_ ->] | [[? _] | [? _]]]]; [lia | done | lia | lia]. }
  rewrite (bool_decide_eq_true_2 (Z.of_nat (length ps) ≤ MAX_RECIPIENTS))
    by (unfold MAX_RECIPIENTS; lia). simpl.
  pose proof uint256_max_pos as Hpos.
  destruct (validate_loop ps 0) as [t | e'] eqn:E; simpl.
  - apply validate_loop_inv in E as (-> & Hvalid & Hmax). rewrite Z.add_0_l.
    assert (sum_amounts ps ≤ uint256_max) as Hsum.
    { apply Hmax. intros ->. simpl in H0. lia. }
    destruct (decide (sum_amounts ps ≤ msg_value tx)) as [Hv | Hv].
    + rewrite bool_decide_eq_true_2 by done. simpl. split; [done |].
      intros [[? _] | [[? _] | [(_ & i & p & (Hp & _ & _) & Hc) | (_ & _ & _ & ? & _)]]];
        [lia | lia | | lia].
      pose proof (proj1 (Forall_forall _ _) Hvalid p
                    (list_elem_of_lookup_2 _ _ _ Hp)) as [Hr Ha].
      pose proof (sum_amounts_take_le ps (S i) (valid_nonneg _ Hvalid)) as Hle.
      rewrite (take_S_r _ _ _ Hp), sum_amounts_app in Hle. simpl in Hle.
      destruct Hc as [[? _] | [(_ & ? & _) | (_ & _ & ? & _)]]; [done | lia | lia].
    + rewrite bool_decide_eq_false_2 by done. simpl. split.
      * intros [= <-]. do 3 right. repeat split; try done; lia.
      * intros [[? _] | [[? _] | [(_ & i & p & (Hp & _ & _) & Hc) | (_ & _ & _ & _ & ->)]]];
          [lia | lia | | done].
        pose proof (proj1 (Forall_forall _ _) Hvalid p
                      (list_elem_of_lookup_2 _ _ _ Hp)) as [Hr Ha].
        pose proof (sum_amounts_take_le ps (S i) (valid_nonneg _ Hvalid)) as Hle.
        rewrite (take_S_r _ _ _ Hp), sum_amounts_app in Hle. simpl in Hle.
        destruct Hc as [[? _] | [(_ & ? & _) | (_ & _ & ? & _)]]; [done | lia | lia].
  - apply validate_loop_fail in E as (i & p & Hp & Hv & Hs & Hc); [| lia].
    rewrite Z.add_0_l in Hs, Hc. split.
    + intros [= <-]. right. right. left. split; [lia |]. by exists i, p.
    + intros [[? _] | [[? _] | [(_ & j & q & (Hq & Hvq & Hsq) & Hcq) | (_ & Hvalid & Hsum & _)]]];
        [lia | lia | |].
      * assert (validate_loop ps 0 = Fail e) as E1.
        { apply validate_loop_fail; [lia |]. exists j, q. by rewrite Z.add_0_l. }
        assert (validate_loop ps 0 = Fail e') as E2.
        { apply validate_loop_fail; [lia |]. exists i, p. by rewrite Z.add_0_l. }
        congruence.
      * assert (validate_loop ps 0 = Fail e') as E2.
        { apply validate_loop_fail; [lia |]. exists i, p. by rewrite Z.add_0_l. }
        rewrite validate_loop_ok in E2 by (done || lia). done.
Qed.

Lemma batchPay_result w tx ps st :
  (batchPay w tx ps st).1 = (batchPay_body w tx ps (receive_value tx st)).1.
Proof.
  unfold batchPay, transact.
  by destruct (batchPay_body w tx ps (receive_value tx st)) as [[rs | e] st1].
Qed.

(** The errors of a validated batch are the overflow of a counter and the
    two errors of the reconciliation. *)
Lemma validated_error w tx ps st t e :
  validation tx ps = Ok t →
  (batchPay_body w tx ps st).1 = Fail e →
  e = Overflow ∨ e = RefundFailed ∨ e = ExcessRefundFailed.
Proof.
  intros Hv Hf.
  destruct (body_run w tx ps st t Hv) as (rs & cs_pay & cs_ref & Hs).
  destruct (proj1 (s_fail _ _ _ _ _ _ _ _ _ Hs e) Hf)
    as [(-> & _) | (c & _ & _ & Hc)]; [by left |].
  destruct (call_site c); simpl in Hc; [done | |]; injection Hc as <-; auto.
Qed.

Lemma input_error_validation w tx ps st e :
  input_error e → (batchPay w tx ps st).1 = Fail e → validation tx ps = Fail e.
Proof.
  intros He Hr. rewrite batchPay_result in Hr.
  destruct (validation tx ps) as [t | e'] eqn:Hv.
  - destruct (validated_error _ _ _ _ _ _ Hv Hr) as [-> | [-> | ->]];
      by destruct He as [? | [? | [? | [? | ?]]]].
  - rewrite (batchPay_body_invalid _ _ _ _ _ Hv) in Hr. by injection Hr as ->.
Qed.

Lemma validation_batchPay w tx ps st e :
  validation tx ps = Fail e → (batchPay w tx ps st).1 = Fail e.
Proof. intros Hv. by rewrite (batchPay_invalid _ _ _ _ _ Hv). Qed.

Ltac input_error_tac :=
  unfold input_error;
  first [ by left | right; first [ by left | right; first [ by left
        | right; first [ by left | by right ] ] ] ].

(** Case analysis on a failed validation, dropping the cases whose error
    is another one. *)
Ltac validation_cases H :=
  apply validation_fail in H;
  destruct H as [[? H] | [[? H] | [(? & ?i & ?p & ? & H) | (? & ? & ? & ? & H)]]];
  [ try discriminate H
  | try discriminate H
  | destruct H as [[? H] | [(? & ? & H) | (? & ? & ? & H)]]; try discriminate H
  | try discriminate H ].

(** C3, as the code has it.  The checks are made in order — the length of
    the batch, then for each payment in turn its recipient, its amount and
    the running total, then the value attached — and the first check that
    fails decides the error: [EmptyBatch] iff the batch is empty;
    [BatchTooLarge] iff it has more than 100 payments; [InvalidRecipient]
    iff its length is within bounds and the first loop reaches a payment
    whose recipient is the zero address; [AmountTooSmall] iff its length is
    within bounds and the first loop reaches a payment with a recipient and
    an amount below [MIN_AMOUNT]; [InsufficientFunds] iff its length is
    within bounds, every payment is valid, the total fits in [uint256] and
    exceeds [msg.value].  Each of these failures leaves the body in the
    state in which it started (no call made, no event emitted, statistics
    untouched), and the call leaves the state as it was. *)
Theorem input_errors w tx ps st :
  let r := (batchPay w tx ps st).1 in
  (r = Fail EmptyBatch ↔ length ps = 0%nat) ∧
  (r = Fail BatchTooLarge ↔ (100 < length ps)%nat) ∧
  (r = Fail InvalidRecipient ↔
     (0 < length ps ≤ 100)%nat ∧ ∃ i p, reached ps i p ∧ recipient p = 0) ∧
  (r = Fail AmountTooSmall ↔
     (0 < length ps ≤ 100)%nat ∧
     ∃ i p, reached ps i p ∧ recipient p ≠ 0 ∧ amount p < MIN_AMOUNT) ∧
  (r = Fail InsufficientFunds ↔
     (0 < length ps ≤ 100)%nat ∧ Forall valid_payment ps ∧
     sum_amounts ps ≤ uint256_max ∧ msg_value tx < sum_amounts ps) ∧
  (∀ e, input_error e → r = Fail e →
     batchPay_body w tx ps (receive_value tx st) = (Fail e, receive_value tx st) ∧
     batchPay w tx ps st = (Fail e, st)).
Proof.
  simpl.
  assert (∀ e, input_error e →
            ((batchPay w tx ps st).1 = Fail e ↔ validation tx ps = Fail e)) as Hiff.
  { intros e He. split; [by apply input_error_validation | apply validation_batchPay]. }
  split; [| split; [| split; [| split; [| split]]]].
  - rewrite Hiff by input_error_tac. split.
    + intros H. by validation_cases H.
    + intros H. apply validation_fail. by left.
  - rewrite Hiff by input_error_tac. split.
    + intros H. by validation_cases H.
    + intros H. apply validation_fail. right. by left.
  - rewrite Hiff by input_error_tac. split.
    + intros H. validation_cases H. split; [done |]. eauto.
    + intros (Hlen & i & p & Hr & Hz). apply validation_fail.
      right. right. left. split; [done |]. exists i, p. split; [done |]. by left.
  - rewrite Hiff by input_error_tac. split.
    + intros H. validation_cases H. split; [done |]. eauto.
    + intros (Hlen & i & p & Hr & Hnz & Hsmall). apply validation_fail.
      right. right. left. split; [done |]. exists i, p. split; [done |].
      right. by left.
  - rewrite Hiff by input_error_tac. split.
    + intros H. by validation_cases H.
    + intros (Hlen & Hvalid & Hsum & Hval). apply validation_fail.
      do 3 right. done.
  - intros e He Hr. apply (input_error_validation w tx ps st) in Hr; [| done].
    split; [by apply batchPay_body_invalid | by apply batchPay_invalid].
Qed.

(** C3, as stated, fails: a batch with a payment to the zero address need
    not fail with [InvalidRecipient], since an earlier check may fail
    first.  Here the first payment is too small and the call fails with
    [AmountTooSmall]. *)
Lemma input_errors_counterexample :
  ¬ (∀ w tx ps st,
       (batchPay w tx ps st).1 = Fail InvalidRecipient ↔
       ∃ p, p ∈ ps ∧ recipient p = 0).
Proof.
  intros H.
  destruct (H accept_all (demo_tx (10 ^ 18)) mixed_batch demo_state) as [_ Hback].
  assert ((batchPay accept_all (demo_tx (10 ^ 18)) mixed_batch demo_state).1 =
          Fail InvalidRecipient) as Hr.
  { apply Hback. exists {| recipient := 0; amount := MIN_AMOUNT |}.
    split; [| done]. apply elem_of_cons. right. apply elem_of_cons. by left. }
  vm_compute in Hr. discriminate Hr.
Qed.

(** A batch of 101 payments is rejected as too large. *)
Lemma input_errors_witness :
  (batchPay accept_all (demo_tx (10 ^ 18))
     (replicate 101 {| recipient := 11; amount := MIN_AMOUNT |}) demo_state).1 =
  Fail BatchTooLarge.
Proof.
  apply (proj2 (proj1 (proj2
    (input_errors accept_all (demo_tx (10 ^ 18))
       (replicate 101 {| recipient := 11; amount := MIN_AMOUNT |}) demo_state)))).
  vm_compute. reflexivity.
Defined.

(** ** C4: failure of the reconciliation *)

Lemma batchPay_body_failed w tx ps st e :
  (batchPay_body w tx ps (receive_value tx st)).1 = Fail e →
  batchPay w tx ps st = (Fail e, st).
Proof.
  unfold batchPay, transact.
  destruct (batchPay_body w tx ps (receive_value tx st)) as [[rs | e'] st1];
    [done | by intros [= ->]].
Qed.

Lemma carried_out_site (rs : list PaymentResult) (cs : list ExtCall) (c : ExtCall) :
  Forall2 carries_out rs cs → c ∈ cs → call_site c = AtPayment.
Proof.
  intros H Hc. apply list_elem_of_lookup in Hc as [i Hi].
  destruct (Forall2_lookup_r _ _ _ _ _ H Hi) as (r & _ & Hsite & _). done.
Qed.

(** The calls of a run of the body. *)
Lemma body_calls w tx ps st :
  match validation tx ps with
  | Ok t =>
      ∃ rs cs_pay cs_ref,
        calls_since st (batchPay_body w tx ps st).2 = cs_pay ++ cs_ref ∧
        settlement tx ps t st (batchPay_body w tx ps st).2
          (batchPay_body w tx ps st).1 rs cs_pay cs_ref
  | Fail e => calls_since st (batchPay_body w tx ps st).2 = []
  end.
Proof.
  destruct (validation tx ps) as [t | e] eqn:Hv.
  - destruct (body_run w tx ps st t Hv) as (rs & cs_pay & cs_ref & Hs).
    exists rs, cs_pay, cs_ref. split; [| done].
    unfold calls_since. rewrite (s_calls _ _ _ _ _ _ _ _ _ Hs).
    apply drop_app_length.
  - rewrite (batchPay_body_invalid _ _ _ _ _ Hv). unfold calls_since. simpl.
    apply drop_all.
Qed.

(** C4. Let [c] be a call that the body of [batchPay] made and that
    failed.  If [c] is the return of [failedAmount], the call of [batchPay]
    fails with [RefundFailed]; if [c] is the return of the excess, it fails
    with [ExcessRefundFailed]; in both cases the state after the call is
    the state of before it: the statistics update, the events and the
    payments already made are undone. *)
Theorem reconciliation_failure w tx ps st c :
  c ∈ calls_since (receive_value tx st)
        (batchPay_body w tx ps (receive_value tx st)).2 →
  call_ok c = false →
  (call_site c = AtRefund → batchPay w tx ps st = (Fail RefundFailed, st)) ∧
  (call_site c = AtExcessRefund → batchPay w tx ps st = (Fail ExcessRefundFailed, st)).
Proof.
  intros Hin Hfail.
  pose proof (body_calls w tx ps (receive_value tx st)) as Hcalls.
  destruct (validation tx ps) as [t | e].
  - destruct Hcalls as (rs & cs_pay & cs_ref & Heq & Hs).
    rewrite Heq in Hin. apply elem_of_app in Hin as [Hin | Hin].
    + pose proof (carried_out_site _ _ _ (s_payments _ _ _ _ _ _ _ _ _ Hs) Hin) as E.
      rewrite E. by split.
    + split; intros Hsite; apply batchPay_body_failed;
        apply (s_fail _ _ _ _ _ _ _ _ _ Hs); right; exists c; by rewrite Hsite.
  - rewrite Hcalls in Hin. by apply elem_of_nil in Hin.
Qed.

(** The second recipient and the sender reject: the refund of the second
    payment fails, although the statistics had been updated and two
    payments made. *)
Lemma reconciliation_failure_witness :
  batchPay (rejecting [12; 7]) (demo_tx (4 * 10 ^ 18)) demo_batch demo_state =
    (Fail RefundFailed, demo_state) ∧
  batchPay (rejecting [7]) (demo_tx (4 * 10 ^ 18)) demo_batch demo_state =
    (Fail ExcessRefundFailed, demo_state).
Proof.
  split.
  - apply (proj1 (reconciliation_failure (rejecting [12; 7]) (demo_tx (4 * 10 ^ 18))
             demo_batch demo_state
             {| call_site := AtRefund; call_target := 7;
                call_value := 2 * 10 ^ 18; call_ok := false;
                call_returned := "Payment rejected" |}
             ltac:(apply (list_elem_of_lookup_2 _ 3%nat); vm_compute; reflexivity)
             eq_refl)).
    reflexivity.
  - apply (proj2 (reconciliation_failure (rejecting [7]) (demo_tx (4 * 10 ^ 18))
             demo_batch demo_state
             {| call_site := AtExcessRefund; call_target := 7;
                call_value := 4 * 10 ^ 18 - sum_amounts demo_batch; call_ok := false;
                call_returned := "Payment rejected" |}
             ltac:(apply (list_elem_of_lookup_2 _ 3%nat); vm_compute; reflexivity)
             eq_refl)).
    reflexivity.
Defined.

(** ** C2: a failed payment does not stop the batch *)

(** C2. For a batch that passes validation, and whatever the outcomes of
    the calls are, the second loop runs to its end without error: it makes
    one call per payment, in order, to the payment's recipient and for its
    amount, and records under the payment's index the outcome of that call
    with the payment's recipient and amount — so a failed payment is
    recorded as [{success: false, recipient, amount}] and the payments
    after it are still attempted; [successCount] and [failureCount] count
    the successful and the failed results.  An error of the whole call is
    never that of a payment: it is the overflow of a statistics counter or
    the error of a failed return of value to the sender. *)
Theorem continue_on_error w tx ps st t :
  validation tx ps = Ok t →
  (∃ l st1 cs,
     process_loop w tx ps 0 (initial_locals (length ps)) st = (Ok l, st1) ∧
     calls st1 = calls st ++ cs ∧
     length (results l) = length ps ∧
     (∀ i p, ps !! i = Some p →
        ∃ c, cs !! i = Some c ∧
             call_site c = AtPayment ∧ call_target c = recipient p ∧
             call_value c = amount p ∧
             results l !! i =
               Some {| success := call_ok c; r_recipient := recipient p;
                       r_amount := amount p |}) ∧
     successCount l = count_success (results l) ∧
     failureCount l = count_failure (results l) ∧
     successCount l + failureCount l = Z.of_nat (length ps)) ∧
  (∀ e, (batchPay_body w tx ps st).1 = Fail e →
     (e = Overflow ∧
      (uint256_max < totalPaymentsProcessed st + Z.of_nat (length ps) ∨
       uint256_max < totalVolumeProcessed st + t)) ∨
     (∃ c, c ∈ calls_since st (batchPay_body w tx ps st).2 ∧
           call_site c ≠ AtPayment ∧ call_ok c = false ∧
           site_error (call_site c) = Some e)).
Proof.
  intros Hv. split.
  - destruct (validated_loop_run w tx ps st t Hv)
      as (rs & l & st1 & Hrun & Hres & Hrec & Heff).
    destruct Heff as [_ _ _ Hsc Hfc _ _ _ _ (cs & Hcs & Hcarry) _ _].
    simpl in Hsc, Hfc.
    exists l, st1, cs. split; [done |]. split; [done |].
    pose proof (Forall2_length _ _ _ Hrec) as Hlen.
    rewrite Hres. split; [done |]. split; [| split; [lia | split; [lia |]]].
    + intros i p Hp.
      destruct (Forall2_lookup_l _ _ _ _ _ Hrec Hp) as (r & Hr & Hto & Ham).
      destruct (Forall2_lookup_l _ _ _ _ _ Hcarry Hr)
        as (c & Hc & Hsite & Htarget & Hvalue & Hok).
      exists c. split; [done |]. split; [done |].
      split; [congruence |]. split; [congruence |].
      rewrite Hr. f_equal. destruct r; simpl in *. congruence.
    + rewrite Hsc, Hfc. pose proof (count_success_failure rs). lia.
  - intros e He.
    pose proof (body_calls w tx ps st) as Hcalls. rewrite Hv in Hcalls.
    destruct Hcalls as (rs & cs_pay & cs_ref & Heq & Hs).
    pose proof Hv as Hv'.
    apply validation_inv in Hv' as (_ & Hvalid & -> & _).
    pose proof (paid_total_range ps rs (s_records _ _ _ _ _ _ _ _ _ Hs)
                  (valid_nonneg _ Hvalid)) as Hrange.
    pose proof (count_success_range rs) as Hcount.
    pose proof (Forall2_length _ _ _ (s_records _ _ _ _ _ _ _ _ _ Hs)) as Hlen.
    destruct (proj1 (s_fail _ _ _ _ _ _ _ _ _ Hs e) He)
      as [(-> & _ & Hov) | (c & Hin & Hfail & Herr)].
    + left. split; [done |]. lia.
    + right. exists c. rewrite Heq. split; [apply elem_of_app; by right |].
      split; [| done].
      by apply (proj1 (Forall_forall _ _) (s_refunds _ _ _ _ _ _ _ _ _ Hs) c Hin).
Qed.

(** The second of three payments fails; the loop still makes three calls
    and returns three results. *)
Lemma continue_on_error_witness :
  ∃ l st1,
    process_loop (rejecting [12]) (demo_tx (4 * 10 ^ 18)) demo_batch 0
      (initial_locals (length demo_batch)) demo_state = (Ok l, st1) ∧
    length (results l) = length demo_batch.
Proof.
  destruct (continue_on_error (rejecting [12]) (demo_tx (4 * 10 ^ 18)) demo_batch
              demo_state (sum_amounts demo_batch) eq_refl)
    as [(l & st1 & cs & Hrun & _ & Hlen & _) _].
  exists l, st1. split; [exact Hrun | exact Hlen].
Defined.

(** ** C7: estimateBatchCost *)

Lemma overflow_batch_wf : wf_batch overflow_batch.
Proof. repeat constructor; by vm_compute. Qed.

(** C7, as stated, fails: [estimateBatchCost] does not return the sum of
    every batch.  On [overflow_batch] the checked addition reverts. *)
Lemma estimateBatchCost_counterexample :
  ¬ (∀ ps, wf_batch ps → estimateBatchCost ps = Ok (sum_amounts ps)).
Proof.
  intros H. specialize (H overflow_batch overflow_batch_wf).
  vm_compute in H. discriminate H.
Qed.

(** C7, as the code has it.  For every batch whose amounts sum to at most
    2^256 - 1, [estimateBatchCost] returns that sum, with no check of the
    length, the recipients or the amounts; for a batch whose amounts sum to
    more, it reverts with an arithmetic overflow.  Whenever the first loop
    of [batchPay] completes, its [totalRequired] is the value
    [estimateBatchCost] returns for the same batch.  A call of
    [estimateBatchCost] never changes the state. *)
Theorem estimateBatchCost_sum ps :
  wf_batch ps →
  (sum_amounts ps ≤ uint256_max → estimateBatchCost ps = Ok (sum_amounts ps)) ∧
  (uint256_max < sum_amounts ps → estimateBatchCost ps = Fail Overflow) ∧
  (∀ totalRequired, validate_loop ps 0 = Ok totalRequired →
     estimateBatchCost ps = Ok totalRequired ∧ totalRequired = sum_amounts ps) ∧
  (∀ w tx st, same_state st (execute w tx (CallEstimateBatchCost ps) st).2).
Proof.
  intros Hwf. apply wf_batch_nonneg in Hwf.
  pose proof uint256_max_pos. unfold estimateBatchCost.
  split; [| split; [| split]].
  - intros Hle. by rewrite estimate_loop_ok by (done || lia).
  - intros Hov. apply estimate_loop_overflow; [done | lia | lia].
  - intros t Ht. split; [by apply validate_loop_estimate |].
    apply validate_loop_inv in Ht as (Ht & _). lia.
  - intros w tx st. apply (execute_other w tx (CallEstimateBatchCost ps) st).
Qed.

(** The estimate of a batch that [batchPay] rejects: its second payment
    has no recipient and its first is below [MIN_AMOUNT]. *)
Lemma estimateBatchCost_sum_witness :
  estimateBatchCost mixed_batch = Ok MIN_AMOUNT.
Proof.
  apply (proj1 (estimateBatchCost_sum mixed_batch
                  ltac:(repeat constructor; by vm_compute))).
  by vm_compute.
Defined.

(** ** C10: checked arithmetic *)

Lemma validate_loop_overflow (ps : list Payment) : ∀ total,
  Forall valid_payment ps →
  total ≤ uint256_max →
  uint256_max < total + sum_amounts ps →
  validate_loop ps total = Fail Overflow.
Proof.
  induction ps as [| p ps IH]; intros total Hv Hle Hov; simpl in *.
  - lia.
  - inversion_clear Hv as [| ? ? [Hr Ha] Hps].
    rewrite (bool_decide_eq_true_2 (recipient p ≠ 0)) by done. simpl.
    rewrite (bool_decide_eq_true_2 (MIN_AMOUNT ≤ amount p)) by done. simpl.
    destruct (decide (total + amount p ≤ uint256_max)) as [Hfit | Hfit].
    + rewrite checked_add_ok by done. simpl. apply IH; [done | done | lia].
    + rewrite checked_add_overflow by lia. done.
Qed.

(** C10. For a batch whose amounts sum past 2^256 - 1 (each amount being
    a [uint256]): [estimateBatchCost] reverts with an arithmetic overflow;
    [batchPay] never accepts the batch, whatever value is attached: it
    fails and leaves the state as it was; and when the batch passes the
    checks of length, recipients and amounts, [batchPay] fails with the
    arithmetic overflow of its own summation. *)
Theorem overflow_reverts ps :
  wf_batch ps →
  uint256_max < sum_amounts ps →
  estimateBatchCost ps = Fail Overflow ∧
  (∀ w tx st, ∃ e, batchPay w tx ps st = (Fail e, st)) ∧
  (∀ w tx st, (0 < length ps ≤ 100)%nat → Forall valid_payment ps →
     batchPay w tx ps st = (Fail Overflow, st)).
Proof.
  intros Hwf Hov. pose proof uint256_max_pos.
  split; [| split].
  - apply estimate_loop_overflow; [by apply wf_batch_nonneg | lia | lia].
  - intros w tx st. destruct (validation tx ps) as [t | e] eqn:Hv.
    + apply validation_inv in Hv as (_ & _ & -> & _ & Hmax). lia.
    + exists e. by apply batchPay_invalid.
  - intros w tx st Hlen Hvalid. apply batchPay_invalid.
    unfold validation, validPayments.
    rewrite (bool_decide_eq_true_2 (0 < Z.of_nat (length ps))) by lia. simpl.
    rewrite (bool_decide_eq_true_2 (Z.of_nat (length ps) ≤ MAX_RECIPIENTS))
      by (unfold MAX_RECIPIENTS; lia). simpl.
    rewrite validate_loop_overflow by (done || lia). done.
Qed.

(** On [overflow_batch] both functions revert, although the sum taken
    modulo 2^256 is 0 and would be covered by any value attached. *)
Lemma overflow_reverts_witness :
  sum_amounts overflow_batch mod 2 ^ 256 = 0 ∧
  estimateBatchCost overflow_batch = Fail Overflow ∧
  batchPay accept_all (demo_tx (10 ^ 18)) overflow_batch demo_state =
    (Fail Overflow, demo_state).
Proof.
  split; [by vm_compute |].
  pose proof (overflow_reverts overflow_batch overflow_batch_wf
                ltac:(by vm_compute)) as (Hest & _ & Hpay).
  split; [exact Hest |].
  apply Hpay; [simpl; lia |]. repeat constructor; by vm_compute.
Defined.

(** ** C8: the reason of a failed payment *)

Lemma loop_events_lookup sender (rs : list PaymentResult) : ∀ (k i : nat),
  loop_events sender k rs !! i = payment_event sender (k + i) <$> rs !! i.
Proof.
  induction rs as [| r rs IH]; intros k [| i]; simpl; try done.
  - by rewrite Nat.add_0_r.
  - rewrite IH. by replace (S k + i)%nat with (k + S i)%nat by lia.
Qed.

Lemma loop_events_length sender (rs : list PaymentResult) : ∀ (k : nat),
  length (loop_events sender k rs) = length rs.
Proof. induction rs as [| r rs IH]; intros k; simpl; [done | by rewrite IH]. Qed.

(** The events and the calls of a completed call. *)
Lemma completed_trace w tx ps st rs st' :
  batchPay w tx ps st = (Ok rs, st') →
  ∃ t cs_pay cs_ref,
    Forall2 records ps rs ∧ Forall2 carries_out rs cs_pay ∧
    Forall (λ c, call_site c ≠ AtPayment) cs_ref ∧
    calls_since st st' = cs_pay ++ cs_ref ∧
    events_since st st' =
      BatchPaymentInitiated (msg_sender tx) (Z.of_nat (length ps)) t
        (block_timestamp tx)
      :: loop_events (msg_sender tx) 0 rs ++
      [BatchPaymentCompleted (msg_sender tx) (count_success rs)
         (count_failure rs) (paid_total rs)].
Proof.
  intros Hrun.
  destruct (batchPay_completed _ _ _ _ _ _ Hrun)
    as (t & cs_pay & cs_ref & _ & [Hrec Hpay _ Hcalls Href _ Hok]).
  destruct (Hok rs eq_refl) as (_ & _ & _ & Hev & _).
  exists t, cs_pay, cs_ref. split; [done |]. split; [done |].
  split; [by eapply Forall_impl; [exact Href |]; intros c [? _] |].
  unfold calls_since, events_since. simpl in Hcalls, Hev.
  rewrite Hcalls, Hev. by rewrite !drop_app_length.
Qed.

(** C8, as stated, fails: the reason of the event is not the one the
    transfer gave.  The second recipient reverts with "Payment rejected",
    and no event of the call carries that reason: the event of the failed
    payment says "Transfer failed". *)
Lemma failure_reason_counterexample :
  ¬ (∀ w tx ps st i c,
       calls_since st (batchPay w tx ps st).2 !! i = Some c →
       call_site c = AtPayment → call_ok c = false →
       ∃ sender index,
         PaymentFailed sender (call_target c) (call_value c) index
           (spec_failure_reason (call_returned c))
         ∈ events_since st (batchPay w tx ps st).2).
Proof.
  intros H.
  destruct (H (rejecting [12]) (demo_tx (4 * 10 ^ 18)) demo_batch demo_state 1%nat
              {| call_site := AtPayment; call_target := 12;
                 call_value := 2 * 10 ^ 18; call_ok := false;
                 call_returned := "Payment rejected" |})
    as (s & k & Hev); [by vm_compute | done | done |].
  vm_compute in Hev.
  repeat (apply elem_of_cons in Hev as [Hev | Hev]; [discriminate Hev |]).
  by apply elem_of_nil in Hev.
Qed.

(** C8, as the code has it.  In a call of [batchPay] that completes, the
    event of a payment whose transfer failed is [PaymentFailed] with the
    sender, the recipient, the amount and the index of the payment and the
    fixed reason "Transfer failed", whatever data the transfer returned:
    the code discards that data.  No [PaymentFailed] event of the call
    carries another reason. *)
Theorem failure_reason w tx ps st rs st' :
  batchPay w tx ps st = (Ok rs, st') →
  (∀ i c, calls_since st st' !! i = Some c →
     call_site c = AtPayment → call_ok c = false →
     ∃ p, ps !! i = Some p ∧
          events_since st st' !! S i =
          Some (PaymentFailed (msg_sender tx) (recipient p) (amount p)
                  (Z.of_nat i) "Transfer failed")) ∧
  (∀ sender recipient_ amount_ index reason,
     PaymentFailed sender recipient_ amount_ index reason ∈ events_since st st' →
     reason = "Transfer failed").
Proof.
  intros Hrun.
  destruct (completed_trace _ _ _ _ _ _ Hrun)
    as (t & cs_pay & cs_ref & Hrec & Hpay & Href & Hcalls & Hev).
  rewrite Hcalls, Hev. split.
  - intros i c Hc Hsite Hfail.
    destruct (decide (i < length cs_pay)%nat) as [Hi | Hi].
    + rewrite lookup_app_l in Hc by done.
      destruct (Forall2_lookup_r _ _ _ _ _ Hpay Hc)
        as (r & Hr & _ & _ & _ & Hok).
      destruct (Forall2_lookup_r _ _ _ _ _ Hrec Hr) as (p & Hp & Hto & Ham).
      exists p. split; [done |]. simpl.
      rewrite lookup_app_l
        by (rewrite loop_events_length, (Forall2_length _ _ _ Hpay); done).
      rewrite loop_events_lookup, Hr. simpl. unfold payment_event.
      rewrite <- Hok, Hfail, Hto, Ham. done.
    + rewrite lookup_app_r in Hc by lia.
      apply list_elem_of_lookup_2 in Hc.
      by apply (proj1 (Forall_forall _ _) Href) in Hc.
  - intros s r a k reason Hin.
    apply elem_of_cons in Hin as [Hin | Hin]; [done |].
    apply elem_of_app in Hin as [Hin | Hin].
    + apply list_elem_of_lookup in Hin as [i Hi].
      rewrite loop_events_lookup in Hi.
      destruct (rs !! i) as [res |]; simpl in Hi; [| done].
      unfold payment_event in Hi. destruct (success res); [done |].
      by injection Hi as _ _ _ _ <-.
    + by apply list_elem_of_singleton in Hin.
Qed.

Lemma failure_reason_witness :
  ∃ p, demo_batch !! 1%nat = Some p ∧
       events_since demo_state
         (batchPay (rejecting [12]) (demo_tx (4 * 10 ^ 18)) demo_batch demo_state).2
         !! 2%nat =
       Some (PaymentFailed 7 (recipient p) (amount p) 1 "Transfer failed").
Proof.
  apply (proj1 (failure_reason (rejecting [12]) (demo_tx (4 * 10 ^ 18)) demo_batch
                  demo_state demo_results
                  (batchPay (rejecting [12]) (demo_tx (4 * 10 ^ 18)) demo_batch
                     demo_state).2
                  ltac:(vm_compute; reflexivity)) 1%nat
           {| call_site := AtPayment; call_target := 12;
              call_value := 2 * 10 ^ 18; call_ok := false;
              call_returned := "Payment rejected" |});
    by vm_compute.
Defined.


(** * Further properties of the contract *)

(** ** The outcome of every payment *)

(** A completed call has run the second loop to its end, and returns its
    results. *)
Lemma batchPay_completed_loop w tx ps st rs st' :
  batchPay w tx ps st = (Ok rs, st') →
  ∃ t l st1,
    validation tx ps = Ok t ∧
    process_loop w tx ps 0 (initial_locals (length ps))
      (add_event (BatchPaymentInitiated (msg_sender tx) (Z.of_nat (length ps)) t
                    (block_timestamp tx)) (receive_value tx st)) = (Ok l, st1) ∧
    results l = rs.
Proof.
  intros Hrun. unfold batchPay, transact in Hrun.
  destruct (validation tx ps) as [t | e] eqn:Hv.
  - rewrite (batchPay_body_valid _ _ _ _ _ Hv) in Hrun.
    destruct (process_loop _ _ _ _ _ _) as [[l | e] st1] eqn:Hloop; [| done].
    exists t, l, st1. split; [done |]. split; [done |].
    rewrite finish_run in Hrun.
    destruct (update_stats l st1) as [[[] | e] st2]; [| done].
    destruct (reconcile _ _ _ _ _) as [[[] | e] st3]; [| done].
    by injection Hrun as ->.
  - by rewrite (batchPay_body_invalid _ _ _ _ _ Hv) in Hrun.
Qed.

(** When the contract holds the amounts still to pay, the outcome of every
    payment is the answer of the world, except for a payment to the
    contract itself. *)
Lemma process_loop_outcomes w tx (ps : list Payment) : ∀ (i : nat) (l l' : Locals) (st st' : State),
  process_loop w tx ps i l st = (Ok l', st') →
  (i + length ps ≤ length (results l))%nat →
  Forall (λ p, 0 ≤ amount p) ps →
  successCount l + Z.of_nat (length ps) ≤ uint256_max →
  failureCount l + Z.of_nat (length ps) ≤ uint256_max →
  totalProcessed l + sum_amounts ps ≤ uint256_max →
  sum_amounts ps ≤ balance st (this tx) →
  ∀ k p, ps !! k = Some p →
    results l' !! (i + k)%nat =
    Some {| success := if decide (recipient p = this tx) then false
                       else (w (length (calls st) + k)%nat (recipient p) (amount p)).1;
            r_recipient := recipient p; r_amount := amount p |}.
Proof.
  induction ps as [| q ps IH]; intros i l l' st st' Hrun Hi Hnn Hsc Hfc Htp Hbal k p Hp;
    [done |].
  inversion_clear Hnn as [| ? ? Hq Hps]. simpl in Hi, Hsc, Hfc, Htp, Hbal.
  pose proof (sum_amounts_nonneg _ Hps) as Hsum.
  rewrite process_loop_cons in Hrun by lia.
  set (ok := (call_outcome w tx (recipient q) (amount q) st).1) in *.
  set (r := {| success := ok; r_recipient := recipient q; r_amount := amount q |}) in *.
  set (l1 := {| results := <[i := r]> (results l);
                successCount := successCount l + (if ok then 1 else 0) |}) in *.
  set (st1 := add_event _ _) in *.
  assert (ok = if decide (recipient q = this tx) then false
               else (w (length (calls st)) (recipient q) (amount q)).1) as Hok.
  { subst ok. unfold call_outcome. case_decide; [done |].
    rewrite decide_False by lia. done. }
  assert (length (calls st1) = S (length (calls st))) as Hlen.
  { subst st1. cbn [calls add_event]. rewrite after_call_calls, length_app. simpl. lia. }
  assert (sum_amounts ps ≤ balance st1 (this tx)) as Hbal1.
  { subst st1. rewrite balance_add_event, after_call_balance. fold ok.
    destruct ok; repeat case_decide; lia. }
  assert ((S i + length ps ≤ length (results l1))%nat) as Hi1.
  { subst l1. simpl. rewrite length_insert. lia. }
  assert (successCount l1 + Z.of_nat (length ps) ≤ uint256_max) as Hsc1.
  { subst l1. simpl. destruct ok; lia. }
  assert (failureCount l1 + Z.of_nat (length ps) ≤ uint256_max) as Hfc1.
  { subst l1. simpl. destruct ok; lia. }
  assert (totalProcessed l1 + sum_amounts ps ≤ uint256_max) as Htp1.
  { subst l1. simpl. destruct ok; lia. }
  destruct k as [| k]; simpl in Hp.
  - injection Hp as <-. rewrite Nat.add_0_r.
    destruct (process_loop_run w tx ps (S i) l1 st1 Hi1 Hps Hsc1 Hfc1 Htp1)
      as (rs & l2 & st2 & Hrun2 & _ & Heff).
    rewrite Hrun in Hrun2. injection Hrun2 as <- <-.
    rewrite (le_before _ _ _ _ _ _ _ Heff i) by lia.
    subst l1. simpl. rewrite list_lookup_insert_eq by lia.
    subst r. by rewrite Hok, Nat.add_0_r.
  - replace (i + S k)%nat with (S i + k)%nat by lia.
    rewrite (IH (S i) l1 l' st1 st' Hrun Hi1 Hps Hsc1 Hfc1 Htp1 Hbal1 k p Hp).
    rewrite Hlen. by replace (S (length (calls st)) + k)%nat
                       with (length (calls st) + S k)%nat by lia.
Qed.

(** X1. In a call of [batchPay] that completes, made by a sender other than
    the contract while the balance of the contract is not negative, the
    contract never lacks the funds for a payment: the payment of index [i]
    succeeds exactly when the recipient accepts the call (the call number
    [i] of the transaction), unless the recipient is the contract itself,
    in which case it fails. *)
Theorem payment_outcomes w tx ps st rs st' :
  batchPay w tx ps st = (Ok rs, st') →
  msg_sender tx ≠ this tx →
  0 ≤ balance st (this tx) →
  ∀ i p, ps !! i = Some p →
    rs !! i =
    Some {| success := if decide (recipient p = this tx) then false
                       else (w (length (calls st) + i)%nat (recipient p) (amount p)).1;
            r_recipient := recipient p; r_amount := amount p |}.
Proof.
  intros Hrun Hne Hbal i p Hp.
  destruct (batchPay_completed_loop _ _ _ _ _ _ Hrun) as (t & l & st1 & Hv & Hloop & <-).
  apply validation_inv in Hv as (Hlen & Hvalid & -> & Hval & Hmax).
  assert (100 < uint256_max) as Hbig by reflexivity.
  apply (process_loop_outcomes w tx ps 0 _ l _ st1 Hloop); try done.
  - simpl. unfold new_results. rewrite length_replicate. lia.
  - by apply valid_nonneg.
  - simpl. lia.
  - simpl. lia.
  - rewrite balance_add_event, receive_value_balance.
    rewrite decide_False by auto. rewrite decide_True by done. lia.
Qed.

Lemma payment_outcomes_witness :
  demo_results !! 1%nat =
  Some {| success := false; r_recipient := 12; r_amount := 2 * 10 ^ 18 |}.
Proof.
  apply (payment_outcomes (rejecting [12]) (demo_tx (4 * 10 ^ 18)) demo_batch
           demo_state demo_results
           (batchPay (rejecting [12]) (demo_tx (4 * 10 ^ 18)) demo_batch demo_state).2
           ltac:(vm_compute; reflexivity) ltac:(done) ltac:(by vm_compute)
           1%nat {| recipient := 12; amount := 2 * 10 ^ 18 |} eq_refl).
Defined.

(** ** The ledger and the events of a completed call *)

(** What a completed call has done, in one statement. *)
Lemma completed_effect w tx ps st rs st' :
  batchPay w tx ps st = (Ok rs, st') →
  Forall2 records ps rs ∧ Forall valid_payment ps ∧
  (0 < length ps ≤ 100)%nat ∧
  sum_amounts ps ≤ msg_value tx ∧ sum_amounts ps ≤ uint256_max ∧
  paid_to (this tx) rs = 0 ∧
  totalPaymentsProcessed st' = totalPaymentsProcessed st + count_success rs ∧
  totalVolumeProcessed st' = totalVolumeProcessed st + paid_total rs ∧
  (∀ a, balance st' a =
        balance st a + paid_to a rs
        - (if decide (a = msg_sender tx) then paid_total rs else 0)) ∧
  ∃ cs_pay cs_ref,
    calls_since st st' = cs_pay ++ cs_ref ∧
    Forall2 carries_out rs cs_pay ∧
    Forall (λ c, call_target c = msg_sender tx ∧ call_ok c = true) cs_ref ∧
    map (λ c, (call_site c, call_value c)) cs_ref =
      refund_plan (sum_amounts ps - paid_total rs) (msg_value tx - sum_amounts ps).
Proof.
  intros Hrun.
  destruct (batchPay_completed _ _ _ _ _ _ Hrun)
    as (t & cs_pay & cs_ref & Hv & [Hrec Hpay Hself Hcalls Href _ Hok]).
  apply validation_inv in Hv as (Hlen & Hvalid & -> & Hval & Hmax).
  destruct (Hok rs eq_refl) as (_ & HP & HV & _ & Hallok & Hplan & Hbal).
  split; [done |]. split; [done |]. split; [done |]. split; [done |].
  split; [done |]. split; [done |]. split; [done |]. split; [done |]. split.
  - intros a. rewrite Hbal, receive_value_balance. repeat case_decide; lia.
  - exists cs_pay, cs_ref. split.
    + unfold calls_since. simpl in Hcalls. rewrite Hcalls. apply drop_app_length.
    + split; [done |]. split; [| done].
      apply Forall_forall. intros c Hc. split.
      * by apply (proj1 (Forall_forall _ _) Href c Hc).
      * by apply (proj1 (Forall_forall _ _) Hallok c Hc).
Qed.

Lemma records_amounts_pos (ps : list Payment) (rs : list PaymentResult) :
  Forall2 records ps rs → Forall valid_payment ps → Forall (λ r, 0 < r_amount r) rs.
Proof.
  induction 1 as [| p r ps rs [_ Ha] _ IH]; intros Hv; [constructor |].
  inversion_clear Hv as [| ? ? [_ Hp] Hps]. constructor; [| by apply IH].
  pose proof MIN_AMOUNT_pos. lia.
Qed.

Lemma paid_to_nonneg a (rs : list PaymentResult) :
  Forall (λ r, 0 < r_amount r) rs → 0 ≤ paid_to a rs.
Proof.
  induction 1 as [| r rs Hr _ IH]; simpl; [lia |].
  destruct (success r); [case_decide |]; lia.
Qed.

Lemma paid_to_zero a (rs : list PaymentResult) (r : PaymentResult) :
  Forall (λ r, 0 < r_amount r) rs → paid_to a rs = 0 →
  r ∈ rs → r_recipient r = a → success r = false.
Proof.
  induction 1 as [| r0 rs Hr0 Hrs IH]; intros Hzero Hin Ha; simpl in Hzero.
  - by apply elem_of_nil in Hin.
  - pose proof (paid_to_nonneg a rs Hrs) as Hnn.
    apply elem_of_cons in Hin as [-> | Hin].
    + destruct (success r0); [| done]. rewrite decide_True in Hzero by done. lia.
    + apply IH; [| done | done].
      destruct (success r0); [case_decide |]; lia.
Qed.

(** X2. In a call of [batchPay] that completes, a payment whose recipient
    is the contract itself is never delivered: its result says
    [success = false], whatever the world answers, because the call runs
    the contract's own [receive], which reverts. *)
Theorem self_payment_fails w tx ps st rs st' r :
  batchPay w tx ps st = (Ok rs, st') →
  r ∈ rs → r_recipient r = this tx → success r = false.
Proof.
  intros Hrun Hin Hself.
  destruct (completed_effect _ _ _ _ _ _ Hrun) as (Hrec & Hvalid & _ & _ & _ & Hzero & _).
  eapply paid_to_zero; [| exact Hzero | exact Hin | exact Hself].
  by eapply records_amounts_pos.
Qed.

Lemma self_payment_fails_witness :
  success {| success := false; r_recipient := 1000; r_amount := 10 ^ 18 |} = false.
Proof.
  apply (self_payment_fails accept_all (demo_tx (10 ^ 18))
           [ {| recipient := 1000; amount := 10 ^ 18 |} ] demo_state
           [ {| success := false; r_recipient := 1000; r_amount := 10 ^ 18 |} ]
           (batchPay accept_all (demo_tx (10 ^ 18))
              [ {| recipient := 1000; amount := 10 ^ 18 |} ] demo_state).2
           {| success := false; r_recipient := 1000; r_amount := 10 ^ 18 |}
           ltac:(vm_compute; reflexivity)
           ltac:(apply elem_of_cons; by left) eq_refl).
Defined.

(** X3. When every payment of a completed call has failed, the call has
    changed nothing but the logs: both counters and the balance of every
    account, the sender's included, are what they were. *)
Theorem all_failed_refunds_all w tx ps st rs st' :
  batchPay w tx ps st = (Ok rs, st') →
  Forall (λ r, success r = false) rs →
  getStats st' = getStats st ∧ ∀ a, balance st' a = balance st a.
Proof.
  intros Hrun Hall.
  destruct (completed_effect _ _ _ _ _ _ Hrun)
    as (_ & _ & _ & _ & _ & _ & HP & HV & Hbal & _).
  assert (count_success rs = 0 ∧ paid_total rs = 0 ∧ ∀ a, paid_to a rs = 0)
    as (H1 & H2 & H3).
  { clear -Hall. induction Hall as [| r rs Hr _ (IH1 & IH2 & IH3)]; simpl; [done |].
    rewrite Hr. repeat split; try lia. intros a. rewrite IH3. lia. }
  split.
  - unfold getStats. rewrite HP, HV, H1, H2. f_equal; lia.
  - intros a. rewrite Hbal, H2, H3. case_decide; lia.
Qed.

Lemma all_failed_refunds_all_witness :
  getStats (batchPay (rejecting [11; 12; 13]) (demo_tx (4 * 10 ^ 18))
              demo_batch demo_state).2 = getStats demo_state
  ∧ ∀ a, balance (batchPay (rejecting [11; 12; 13]) (demo_tx (4 * 10 ^ 18))
                    demo_batch demo_state).2 a = balance demo_state a.
Proof.
  apply (all_failed_refunds_all (rejecting [11; 12; 13]) (demo_tx (4 * 10 ^ 18))
           demo_batch demo_state
           [ {| success := false; r_recipient := 11; r_amount := 10 ^ 18 |};
             {| success := false; r_recipient := 12; r_amount := 2 * 10 ^ 18 |};
             {| success := false; r_recipient := 13; r_amount := 10 ^ 15 |} ]
           _ ltac:(vm_compute; reflexivity)).
  by repeat constructor.
Defined.

(** X4. The events of a call of [batchPay] that completes are, in order:
    [BatchPaymentInitiated] with the number of payments and the sum of
    their amounts; for the payment of each index [i] one event carrying
    that index, [PaymentSuccess] or [PaymentFailed] as its result says; and
    [BatchPaymentCompleted], whose two counts add up to the number of
    payments announced by the first event. *)
Theorem event_log w tx ps st rs st' :
  batchPay w tx ps st = (Ok rs, st') →
  length (events_since st st') = S (S (length ps)) ∧
  events_since st st' !! 0%nat =
    Some (BatchPaymentInitiated (msg_sender tx) (Z.of_nat (length ps))
            (sum_amounts ps) (block_timestamp tx)) ∧
  (∀ i r, rs !! i = Some r →
     events_since st st' !! S i =
     Some (if success r
           then PaymentSuccess (msg_sender tx) (r_recipient r) (r_amount r) (Z.of_nat i)
           else PaymentFailed (msg_sender tx) (r_recipient r) (r_amount r)
                  (Z.of_nat i) "Transfer failed")) ∧
  events_since st st' !! S (length ps) =
    Some (BatchPaymentCompleted (msg_sender tx) (count_success rs)
            (count_failure rs) (paid_total rs)) ∧
  count_success rs + count_failure rs = Z.of_nat (length ps).
Proof.
  intros Hrun.
  destruct (batchPay_completed _ _ _ _ _ _ Hrun)
    as (t & cs_pay & cs_ref & Hv & [Hrec _ _ _ _ _ Hok]).
  apply validation_inv in Hv as (_ & _ & -> & _).
  destruct (Hok rs eq_refl) as (_ & _ & _ & Hev & _).
  pose proof (Forall2_length _ _ _ Hrec) as Hlen.
  unfold events_since. simpl in Hev. rewrite Hev, drop_app_length.
  split; [| split; [done | split; [| split]]].
  - simpl. rewrite length_app, loop_events_length. simpl. lia.
  - intros i r Hr. simpl.
    rewrite lookup_app_l
      by (rewrite loop_events_length; by eapply lookup_lt_Some).
    rewrite loop_events_lookup, Hr. done.
  - simpl. rewrite lookup_app_r by (rewrite loop_events_length; lia).
    rewrite loop_events_length, Hlen, Nat.sub_diag. done.
  - rewrite count_success_failure. lia.
Qed.

Lemma event_log_witness :
  events_since demo_state
    (batchPay (rejecting [12]) (demo_tx (4 * 10 ^ 18)) demo_batch demo_state).2
    !! 4%nat = Some (BatchPaymentCompleted 7 2 1 (10 ^ 18 + 10 ^ 15)).
Proof.
  apply (proj1 (proj2 (proj2 (proj2
    (event_log (rejecting [12]) (demo_tx (4 * 10 ^ 18)) demo_batch demo_state
       demo_results _ ltac:(vm_compute; reflexivity)))))).
Defined.

(** ** Callers that attach the exact sum *)

Lemma totalAmount_sum (ps : list Payment) : totalAmount ps = sum_amounts ps.
Proof.
  unfold totalAmount.
  assert (∀ acc, foldl (λ sum r, sum + amount r) acc ps = acc + sum_amounts ps) as H.
  { induction ps as [| p ps IH]; intros acc; simpl; [lia |]. rewrite IH. lia. }
  rewrite H. lia.
Qed.

Lemma estimate_loop_value (ps : list Payment) : ∀ total t,
  estimate_loop ps total = Ok t → t = total + sum_amounts ps.
Proof.
  induction ps as [| p ps IH]; intros total t H; simpl in *.
  - injection H as <-. lia.
  - destruct (checked_add total (amount p)) as [t' |] eqn:E; simpl in H; [| done].
    apply checked_add_inv in E as [-> _]. apply IH in H. lia.
Qed.

(** X5. A caller that attaches the sum it computed itself over unbounded
    integers (as the test script does), which is also what
    [estimateBatchCost] returns when it returns (as the backend's estimate
    route uses it): [batchPay] never fails with [InsufficientFunds], and a
    call that completes makes no return of excess. *)
Theorem exact_value w tx ps st :
  msg_value tx = totalAmount ps →
  (∀ t, estimateBatchCost ps = Ok t → t = msg_value tx) ∧
  (batchPay w tx ps st).1 ≠ Fail InsufficientFunds ∧
  (∀ rs st', batchPay w tx ps st = (Ok rs, st') →
     Forall (λ c, call_site c ≠ AtExcessRefund) (calls_since st st')).
Proof.
  intros Hval. rewrite totalAmount_sum in Hval. split; [| split].
  - intros t Ht. apply estimate_loop_value in Ht. lia.
  - intros Hfail.
    apply input_error_validation in Hfail; [| unfold input_error; auto 10].
    apply validation_fail in Hfail
      as [[_ ?] | [[_ ?] | [(_ & i & p & _ & Hc) | (_ & _ & _ & Hlt & _)]]];
      [done | done | | lia].
    destruct Hc as [[_ ?] | [(_ & _ & ?) | (_ & _ & _ & ?)]]; done.
  - intros rs st' Hrun.
    destruct (completed_effect _ _ _ _ _ _ Hrun)
      as (_ & _ & _ & _ & _ & _ & _ & _ & _ & cs_pay & cs_ref & -> & Hpay & _ & Hplan).
    apply Forall_app. split.
    + apply Forall_forall. intros c Hc.
      by rewrite (carried_out_site _ _ _ Hpay Hc).
    + rewrite Hval, Z.sub_diag in Hplan. unfold refund_plan in Hplan.
      rewrite (decide_False (P := 0 < 0)) in Hplan by lia.
      rewrite app_nil_r in Hplan.
      apply Forall_forall. intros c Hc.
      assert ((call_site c, call_value c)
              ∈ map (λ c', (call_site c', call_value c')) cs_ref) as Hin.
      { apply list_elem_of_In. apply list_elem_of_In in Hc.
        exact (in_map (λ c', (call_site c', call_value c')) cs_ref c Hc). }
      rewrite Hplan in Hin. case_decide; [| by apply elem_of_nil in Hin].
      apply list_elem_of_singleton in Hin. injection Hin as -> _. done.
Qed.

Lemma exact_value_witness :
  (batchPay (rejecting [12]) (demo_tx (totalAmount demo_batch)) demo_batch
     demo_state).1 ≠ Fail InsufficientFunds.
Proof.
  exact (proj1 (proj2 (exact_value (rejecting [12]) (demo_tx (totalAmount demo_batch))
                         demo_batch demo_state eq_refl))).
Defined.

Lemma reconcile_nothing w tx t l st :
  totalProcessed l = t → msg_value tx = t →
  reconcile w tx t l st = (Ok tt, st).
Proof.
  intros H1 H2. rewrite reconcile_steps by lia. rewrite bind_run.
  unfold refund_step. rewrite H1, H2, !Z.sub_diag.
  rewrite (decide_False (P := 0 < 0)) by lia. done.
Qed.

(** X6. With the exact sum attached and every recipient accepting (none
    being the contract), a validated batch is settled in full: [batchPay]
    returns one successful result per payment and makes the payment calls
    only, so that it completes even when the sender could not receive
    value — provided the counters have room, the sender is not the
    contract and the balance of the contract is not negative. *)
Theorem all_accept_completes w tx ps st :
  validation tx ps = Ok (msg_value tx) →
  totalPaymentsProcessed st + Z.of_nat (length ps) ≤ uint256_max →
  totalVolumeProcessed st + msg_value tx ≤ uint256_max →
  msg_sender tx ≠ this tx →
  0 ≤ balance st (this tx) →
  (∀ k p, p ∈ ps → recipient p ≠ this tx ∧ (w k (recipient p) (amount p)).1 = true) →
  ∃ st',
    batchPay w tx ps st =
      (Ok ((λ p, {| success := true; r_recipient := recipient p;
                    r_amount := amount p |}) <$> ps), st') ∧
    length (calls_since st st') = length ps ∧
    Forall (λ c, call_site c = AtPayment ∧ call_ok c = true) (calls_since st st').
Proof.
  intros Hv Hpay Hvol Hne Hbal Hw.
  unfold batchPay, transact. rewrite (batchPay_body_valid _ _ _ _ _ Hv).
  set (st0 := add_event _ _).
  destruct (validated_loop_run w tx ps st0 _ Hv)
    as (rs & l & st1 & Hloop & Hres & Hrec & Heff).
  rewrite Hloop.
  apply validation_inv in Hv as (Hlen & Hvalid & Hsum & _ & Hmax).
  assert (100 < uint256_max) as Hbig by reflexivity.
  assert (rs = (λ p, {| success := true; r_recipient := recipient p;
                        r_amount := amount p |}) <$> ps) as Hrs.
  { assert (sum_amounts ps ≤ balance st0 (this tx)) as Hbal0.
    { subst st0. rewrite balance_add_event, receive_value_balance.
      rewrite decide_False by auto. rewrite decide_True by done. lia. }
    assert ((0 + length ps ≤ length (results (initial_locals (length ps))))%nat) as Hi.
    { simpl. unfold new_results. rewrite length_replicate. lia. }
    apply list_eq. intros k. rewrite list_lookup_fmap.
    destruct (ps !! k) as [p |] eqn:Hp; simpl.
    - rewrite <- Hres.
      pose proof (process_loop_outcomes w tx ps 0 _ l st0 st1 Hloop Hi
                    (valid_nonneg _ Hvalid) ltac:(simpl; lia) ltac:(simpl; lia)
                    ltac:(simpl; lia) Hbal0 k p Hp) as Hout.
      change (0 + k)%nat with k in Hout. rewrite Hout.
      destruct (Hw (length (calls st0) + k)%nat p (list_elem_of_lookup_2 _ _ _ Hp))
        as [Hself Hok].
      rewrite decide_False by done. by rewrite Hok.
    - apply lookup_ge_None. apply lookup_ge_None in Hp.
      rewrite <- (Forall2_length _ _ _ Hrec). done. }
  destruct Heff as [_ _ _ Hsc _ Htp HP HV _ (cs & Hcs & Hcarry) _ _].
  simpl in Hsc, Htp. subst st0. simpl in HP, HV, Hcs.
  assert (count_success rs = Z.of_nat (length ps) ∧ paid_total rs = sum_amounts ps)
    as [Hcount Hpaid].
  { rewrite Hrs. clear. induction ps as [| p ps [IH1 IH2]]; csimpl; [done |].
    rewrite IH1, IH2. split; lia. }
  rewrite finish_run, update_stats_ok by lia.
  rewrite reconcile_nothing by lia.
  eexists. split; [by rewrite Hres, Hrs |].
  unfold calls_since. simpl. rewrite Hcs, drop_app_length.
  split; [by rewrite <- (Forall2_length _ _ _ Hcarry), <- (Forall2_length _ _ _ Hrec) |].
  apply Forall_forall. intros c Hc. apply list_elem_of_lookup in Hc as [k Hk].
  destruct (Forall2_lookup_r _ _ _ _ _ Hcarry Hk) as (r & Hr & Hsite & _ & _ & Hok).
  split; [done |]. rewrite Hok. rewrite Hrs, list_lookup_fmap in Hr.
  destruct (ps !! k); simpl in Hr; [| done]. by injection Hr as <-.
Qed.

Lemma all_accept_completes_witness :
  ∃ st',
    batchPay (rejecting [7]) (demo_tx (sum_amounts demo_batch)) demo_batch demo_state =
      (Ok ((λ p, {| success := true; r_recipient := recipient p;
                    r_amount := amount p |}) <$> demo_batch), st') ∧
    length (calls_since demo_state st') = length demo_batch ∧
    Forall (λ c, call_site c = AtPayment ∧ call_ok c = true)
      (calls_since demo_state st').
Proof.
  apply (all_accept_completes (rejecting [7]) (demo_tx (sum_amounts demo_batch))
           demo_batch demo_state eq_refl);
    try by vm_compute.
  intros k p Hp.
  repeat (apply elem_of_cons in Hp as [-> | Hp]; [by vm_compute |]).
  by apply elem_of_nil in Hp.
Defined.

(** ** Sequences of calls *)

Lemma run_cons w txc (cs : list (Tx * Call)) st :
  run w (txc :: cs) st = run w cs (execute w txc.1 txc.2 st).2.
Proof. reflexivity. Qed.

(** X7. After any sequence of calls, [getStats] returns what it returned
    before, plus, for the calls of [batchPay] that completed: the number of
    their successful results, and the sum of the amounts of those
    results. *)
Theorem stats_after_run w (cs : list (Tx * Call)) : ∀ st,
  getStats (run w cs st) =
  (totalPaymentsProcessed st
     + foldr (λ rs n, count_success rs + n) 0 (completed w cs st),
   totalVolumeProcessed st
     + foldr (λ rs v, paid_total rs + v) 0 (completed w cs st)).
Proof.
  induction cs as [| [tx c] cs IH]; intros st.
  - unfold getStats. simpl. f_equal; lia.
  - rewrite run_cons, IH. simpl.
    destruct (execute_stats w tx c st) as [_ Hstep].
    destruct c as [ps | ps | | | | | | |];
      try (destruct Hstep as [-> ->]; done).
    destruct (execute w tx (CallBatchPay ps) st).1 as [[rs | | |] | e];
      try (destruct Hstep as [-> ->]; done).
    destruct Hstep as (-> & -> & _). simpl. f_equal; lia.
Qed.

Lemma execute_contract_balance w tx c st :
  msg_sender tx ≠ this tx →
  balance (execute w tx c st).2 (this tx) = balance st (this tx).
Proof.
  intros Hne. pose proof (execute_other w tx c st) as Hother.
  destruct c as [ps | ps | | | | | | |];
    try (destruct Hother as (_ & _ & Hb & _); by rewrite Hb).
  rewrite execute_batchPay.
  destruct (batchPay w tx ps st) as [[rs | e] st'] eqn:E; simpl.
  - destruct (completed_effect _ _ _ _ _ _ E)
      as (_ & _ & _ & _ & _ & Hself & _ & _ & Hbal & _).
    rewrite Hbal, Hself. rewrite decide_False by auto. lia.
  - by apply batchPay_failed in E as ->.
Qed.

(** X8. The contract keeps no value: over any sequence of calls made to it
    by senders other than itself, its balance stays what it was, whatever
    the calls are and however they end. *)
Theorem contract_keeps_nothing w (contract : address) (cs : list (Tx * Call)) : ∀ st,
  Forall (λ txc, this txc.1 = contract ∧ msg_sender txc.1 ≠ contract) cs →
  balance (run w cs st) contract = balance st contract.
Proof.
  induction cs as [| [tx c] cs IH]; intros st Hall; [done |].
  inversion_clear Hall as [| ? ? [Hthis Hne] Hrest]. simpl in Hthis, Hne.
  rewrite run_cons, IH by done. simpl. subst contract.
  by apply execute_contract_balance.
Qed.

Lemma contract_keeps_nothing_witness :
  balance
    (run (rejecting [12])
       [ (demo_tx (4 * 10 ^ 18), CallBatchPay demo_batch);
         (demo_tx 5, CallPlainTransfer);
         (demo_tx (10 ^ 18), CallBatchPay demo_batch) ] demo_state) 1000 =
  balance demo_state 1000.
Proof.
  apply contract_keeps_nothing. by repeat constructor.
Defined.

(** ** The counters a script derives from the logs *)

Lemma count_logs_loop sender (rs : list PaymentResult) : ∀ (i : nat) (counts : Z * Z),
  foldl (λ counts log,
           match log with
           | PaymentSuccess _ _ _ _ => (counts.1 + 1, counts.2)
           | PaymentFailed _ _ _ _ _ => (counts.1, counts.2 + 1)
           | _ => counts
           end) counts (loop_events sender i rs) =
  (counts.1 + count_success rs, counts.2 + count_failure rs).
Proof.
  induction rs as [| r rs IH]; intros i [a b]; simpl.
  - f_equal; lia.
  - unfold payment_event. destruct (success r); rewrite IH; simpl; f_equal; lia.
Qed.

(** X9. The counters that the test script derives from the logs of a
    completed call, by counting the [PaymentSuccess] and the
    [PaymentFailed] events, are the numbers of successful and of failed
    results that [batchPay] returned — the very counts of the
    [BatchPaymentCompleted] event — and add up to the number of
    payments. *)
Theorem log_counts w tx ps st rs st' :
  batchPay w tx ps st = (Ok rs, st') →
  count_logs (events_since st st') = (count_success rs, count_failure rs) ∧
  (count_logs (events_since st st')).1 + (count_logs (events_since st st')).2 =
    Z.of_nat (length ps).
Proof.
  intros Hrun.
  destruct (completed_trace _ _ _ _ _ _ Hrun)
    as (t & cs_pay & cs_ref & Hrec & _ & _ & _ & Hev).
  assert (count_logs (events_since st st') = (count_success rs, count_failure rs)) as H.
  { rewrite Hev. unfold count_logs. simpl. rewrite foldl_app, count_logs_loop. done. }
  split; [done |]. rewrite H. simpl.
  rewrite count_success_failure, (Forall2_length _ _ _ Hrec). done.
Qed.

Lemma log_counts_witness :
  count_logs
    (events_since demo_state
       (batchPay (rejecting [12]) (demo_tx (4 * 10 ^ 18)) demo_batch demo_state).2) =
  (2, 1).
Proof.
  exact (proj1 (log_counts (rejecting [12]) (demo_tx (4 * 10 ^ 18)) demo_batch
                  demo_state demo_results _ ltac:(vm_compute; reflexivity))).
Defined.

(** * The join sessions *)

Module QrJoinFacts.
Import QrJoin.

Section Facts.
Context `{Js}.

Implicit Types (sessions : gmap string Session) (session : Session)
  (id : string) (req : Request) (now : Z).

(** The expired sessions are removed by [cleanupExpiredSessions], the others stay. *)
Lemma cleanup_lookup now sessions id :
  cleanupExpiredSessions now sessions !! id
  = match sessions !! id with
    | Some session => if decide (now > expiresAt session) then None else Some session
    | None => None
    end.
Proof.
  unfold cleanupExpiredSessions.
  assert (∀ b m : gmap string Session,
    map_fold (λ id session acc,
                if decide (now > expiresAt session) then delete id acc else acc) b m
      !! id
    = match m !! id with
      | Some session => if decide (now > expiresAt session) then None else b !! id
      | None => b !! id
      end) as Hfold.
  { intros b m. revert id.
    apply (map_fold_weak_ind (λ (r m : gmap string Session), ∀ id, r !! id = match m !! id with
      | Some session => if decide (now > expiresAt session) then None else b !! id
      | None => b !! id end)).
    - intros id. by rewrite lookup_empty.
    - intros i x m' r Hi IH id.
      destruct (decide (i = id)) as [->|Hne].
      + rewrite lookup_insert_eq. case_decide.
        * by rewrite lookup_delete_eq.
        * by rewrite IH, Hi.
      + rewrite lookup_insert_ne by done. case_decide.
        * by rewrite lookup_delete_ne, IH.
        * by rewrite IH. }
  rewrite Hfold. destruct (sessions !! id) eqn:E; by rewrite ?E.
Qed.

(** What a request does to the session [id]. *)
Lemma step_other now now' req sessions id id' :
  target req = Some id → id' ≠ id →
  (step now now' req sessions).2 !! id' = sessions !! id'.
Proof.
  intros Ht Hne.
  destruct req; simpl in Ht; simplify_eq; simpl;
    unfold create, get_session, add, get_recipients, close;
    repeat case_match; simpl;
    rewrite ?lookup_insert_ne, ?lookup_delete_ne by done; done.
Qed.

Lemma step_absent now now' req sessions id :
  ¬ creates id req → sessions !! id = None →
  (step now now' req sessions).2 !! id = None.
Proof.
  intros Hc Hid.
  destruct (target req) as [id'|] eqn:Ht.
  - destruct (decide (id = id')) as [->|Hne].
    + destruct req; simpl in Ht, Hc; simplify_eq; simpl;
        unfold create, get_session, add, get_recipients, close;
        rewrite ?Hid; repeat case_match; simpl; done.
    + by rewrite (step_other _ _ _ _ id').
  - destruct req; simplify_eq. simpl. by rewrite cleanup_lookup, Hid.
Qed.

Lemma push_extends r session :
  active session = true → extends session (push r session).
Proof.
  intros Ha. split; simpl; try done.
  - by apply prefix_app_r.
  - congruence.
Qed.

Lemma deactivate_extends session : extends session (deactivate session).
Proof.
  split; simpl; try done. intros Ha. destruct session; simpl in *. by subst.
Qed.

Lemma extends_refl session : extends session session.
Proof. split; done. Qed.

Lemma extends_trans s1 s2 s3 : extends s1 s2 → extends s2 s3 → extends s1 s3.
Proof.
  intros [] []. split; try congruence; try by etrans.
  - auto.
  - intros Ha. assert (s2 = s1) by auto. subst. auto.
Qed.

(** One request, on a session that the map holds and that the request does
    not create anew: the session is removed or extended. *)
Lemma step_present now now' req sessions id session :
  ¬ creates id req → sessions !! id = Some session →
  (step now now' req sessions).2 !! id = None ∧ now > expiresAt session
  ∨ ∃ session', (step now now' req sessions).2 !! id = Some session'
                ∧ extends session session'.
Proof.
  intros Hc Hid.
  destruct (target req) as [id'|] eqn:Ht.
  - destruct (decide (id = id')) as [->|Hne].
    + destruct req; simpl in Ht, Hc; simplify_eq; simpl;
        unfold get_session, add, get_recipients, close;
        rewrite ?Hid; repeat case_match; simpl;
        rewrite ?lookup_insert_eq, ?lookup_delete_eq;
        eauto using extends_refl, deactivate_extends.
      right. eexists; split; [done|]. apply push_extends.
      by destruct (active session).
    + rewrite (step_other _ _ _ _ id') by done. eauto using extends_refl.
  - destruct req; simplify_eq. simpl. rewrite cleanup_lookup, Hid.
    case_decide; eauto using extends_refl.
Qed.

Lemma serve_snoc reqs r sessions :
  serve (reqs ++ [r]) sessions = (step r.1.1 r.1.2 r.2 (serve reqs sessions)).2.
Proof. unfold serve. by rewrite foldl_snoc. Qed.

Lemma serve_history reqs sessions id session :
  Forall (λ r, ¬ creates id r.2) reqs → sessions !! id = Some session →
  serve reqs sessions !! id = None
  ∨ ∃ session', serve reqs sessions !! id = Some session' ∧ extends session session'.
Proof.
  intros Hc Hid. induction reqs as [|r reqs IH] using rev_ind.
  - right. exists session. split; [exact Hid|apply extends_refl].
  - apply Forall_app in Hc as [Hc Hr]. rewrite Forall_singleton in Hr.
    rewrite serve_snoc. destruct (IH Hc) as [Hn|(s' & Hs' & Hext)].
    + left. apply step_absent; [exact Hr|exact Hn].
    + destruct (step_present r.1.1 r.1.2 r.2 _ id s' Hr Hs') as [[? _]|(s'' & ? & ?)];
        eauto using extends_trans.
Qed.


Lemma truthy_Some o s : truthy o = Some s → o = Some s ∧ s ≠ EmptyString.
Proof. destruct o as [s'|]; simpl; [|done]. case_decide; naive_solver. Qed.

Lemma some_lowered a session :
  existsb (λ r, bool_decide (toLowerCase (address r) = toLowerCase a))
    (recipients session) = true
  ↔ toLowerCase a ∈ lowered session.
Proof.
  unfold lowered. induction (recipients session) as [|r l IH]; csimpl.
  - split; [done|]. by intros ?%elem_of_nil.
  - rewrite orb_true_iff, IH, elem_of_cons, bool_decide_eq_true.
    split; intros [?|?]; auto.
Qed.


Lemma new_well_formed id creator m now now' :
  creator ≠ EmptyString →
  well_formed id {| sessionId := id; creatorAddress := creator; recipients := [];
                    maxRecipients := m; createdAt := now;
                    expiresAt := now' + SESSION_EXPIRY; active := true |}.
Proof.
  intros. split; simpl; try done.
  - apply NoDup_nil_2.
  - lia.
Qed.

Lemma push_well_formed id session a n v j t :
  well_formed id session → a ≠ EmptyString → isAddress a = true →
  toLowerCase a ∉ lowered session →
  ¬ Z.of_nat (length (recipients session)) >= maxRecipients session →
  well_formed id
    (push {| address := a; name := n; amount := v; joinMethod := j; addedAt := t |}
       session).
Proof.
  intros [] Ha Hok Hnew Hroom. split; simpl; try done.
  - unfold lowered. simpl. rewrite fmap_app. apply NoDup_app. split; [done|].
    split; [|apply NoDup_singleton].
    intros x Hx ->%list_elem_of_singleton. done.
  - apply Forall_app. split; [done|]. by apply Forall_singleton.
  - rewrite length_app. simpl. lia.
Qed.

Lemma deactivate_well_formed id session :
  well_formed id session → well_formed id (deactivate session).
Proof. intros []. by split. Qed.

Lemma step_well_formed now now' req sessions :
  map_Forall well_formed sessions →
  map_Forall well_formed (step now now' req sessions).2.
Proof.
  intros Hwf id s Hs.
  destruct (target req) as [id'|] eqn:Ht.
  - destruct (decide (id = id')) as [->|Hne].
    + destruct req; simpl in Ht; simplify_eq; simpl in Hs.
      * unfold create in Hs. destruct (truthy creatorAddress_) as [c|] eqn:Hc.
        -- simpl in Hs. rewrite lookup_insert_eq in Hs. simplify_eq.
           apply new_well_formed. by apply truthy_Some in Hc as [_ ?].
        -- by apply Hwf.
      * unfold get_session in Hs. destruct (sessions !! id') eqn:E; [|by apply Hwf].
        case_decide; simpl in Hs; [by rewrite lookup_delete_eq in Hs|by apply Hwf].
      * unfold add in Hs. destruct (truthy address_) as [a|] eqn:Ha; [|by apply Hwf].
        apply truthy_Some in Ha as [_ Ha].
        destruct (sessions !! id') as [session|] eqn:E; [|by apply Hwf].
        case_decide; [by simpl in Hs; rewrite lookup_delete_eq in Hs|].
        destruct (active session); simpl in Hs; [|by apply Hwf].
        destruct (existsb _ _) eqn:Hdup; [by apply Hwf|].
        case_bool_decide; [by apply Hwf|].
        destruct (isAddress a) eqn:Hok; simpl in Hs; [|by apply Hwf].
        rewrite lookup_insert_eq in Hs. simplify_eq.
        apply push_well_formed; auto.
        rewrite <- some_lowered. by rewrite Hdup.
      * unfold get_recipients in Hs. destruct (sessions !! id'); by apply Hwf.
      * unfold close in Hs. destruct (sessions !! id') as [session|] eqn:E;
          [|by apply Hwf].
        case_decide; simpl in Hs; [by apply Hwf|].
        rewrite lookup_insert_eq in Hs. simplify_eq.
        apply deactivate_well_formed. by apply Hwf.
    + rewrite (step_other _ _ _ _ id') in Hs by done. by apply Hwf.
  - destruct req; simplify_eq. simpl in Hs. rewrite cleanup_lookup in Hs.
    destruct (sessions !! id) eqn:E; [|done]. case_decide; simplify_eq.
    by apply Hwf.
Qed.

Lemma serve_well_formed reqs : map_Forall well_formed (serve reqs ∅).
Proof.
  induction reqs as [|r reqs IH] using rev_ind.
  - apply map_Forall_empty.
  - rewrite serve_snoc. by apply step_well_formed.
Qed.




(** X11. In a session reached from the empty map, every recipient has an
    address that [ethers.isAddress] accepted, and no two recipients have
    the same address up to the case of the letters. *)
Theorem recipients_distinct reqs id session i j ri rj :
  serve reqs ∅ !! id = Some session →
  recipients session !! i = Some ri → recipients session !! j = Some rj →
  isAddress (address ri) = true
  ∧ (toLowerCase (address ri) = toLowerCase (address rj) → i = j).
Proof.
  intros Hs Hi Hj. destruct (serve_well_formed reqs id session Hs) as [_ _ Hnd Hall _].
  split.
  - rewrite Forall_lookup in Hall. by destruct (Hall i ri Hi).
  - intros Heq. apply (NoDup_lookup _ i j (toLowerCase (address ri)) Hnd).
    + unfold lowered. by rewrite list_lookup_fmap, Hi.
    + unfold lowered. by rewrite list_lookup_fmap, Hj, Heq.
Qed.


(** X13. A closed session stays as it is: whatever requests follow, short
    of one that creates a session under its identifier, the map holds the
    same session or none. *)
Theorem closed_session_frozen reqs sessions id session :
  Forall (λ r, ¬ creates id r.2) reqs →
  sessions !! id = Some session → active session = false →
  serve reqs sessions !! id = None ∨ serve reqs sessions !! id = Some session.
Proof.
  intros Hc Hid Ha.
  destruct (serve_history reqs sessions id session Hc Hid) as [?|(s' & Hs' & [])];
    [by left|right].
  rewrite Hs'. f_equal. auto.
Qed.

(** X14. One request turns an active session into a closed one only if it
    is [POST /:sessionId/close] with the address of the creator, up to the
    case of the letters; the session is otherwise as before. *)
Theorem only_creator_closes now now' req sessions id session session' :
  sessions !! id = Some session → active session = true →
  (step now now' req sessions).2 !! id = Some session' → active session' = false →
  ∃ c, req = Close id (Some c)
       ∧ toLowerCase c = toLowerCase (creatorAddress session)
       ∧ session' = deactivate session.
Proof.
  intros Hid Ha Hs Ha'.
  destruct (target req) as [id'|] eqn:Ht.
  - destruct (decide (id = id')) as [->|Hne].
    + destruct req; simpl in Ht; simplify_eq; simpl in Hs.
      * unfold create in Hs. destruct (truthy creatorAddress_); simpl in Hs.
        -- rewrite lookup_insert_eq in Hs. by simplify_eq.
        -- congruence.
      * unfold get_session in Hs. rewrite Hid in Hs.
        case_decide; simpl in Hs; [by rewrite lookup_delete_eq in Hs|congruence].
      * unfold add in Hs. rewrite Hid in Hs.
        repeat case_match; simpl in Hs;
          rewrite ?lookup_insert_eq, ?lookup_delete_eq in Hs; simplify_eq;
          simpl in Ha'; congruence.
      * unfold get_recipients in Hs. rewrite Hid in Hs. simpl in Hs. congruence.
      * unfold close in Hs. rewrite Hid in Hs.
        case_decide as Hcr; simpl in Hs; [congruence|].
        rewrite lookup_insert_eq in Hs. simplify_eq.
        destruct creatorAddress_ as [c|]; simpl in Hcr.
        -- exists c. split; [done|]. split; [congruence|done].
        -- done.
    + rewrite (step_other _ _ _ _ id') in Hs by done. congruence.
  - destruct req; simplify_eq. simpl in Hs. rewrite cleanup_lookup, Hid in Hs.
    case_decide; simplify_eq. congruence.
Qed.

(** X15. [cleanupExpiredSessions] leaves exactly the sessions that have not
    expired, each as it was. *)
Theorem cleanup_removes_expired now sessions :
  cleanupExpiredSessions now sessions
  = filter (λ entry, ¬ now > expiresAt entry.2) sessions.
Proof.
  apply map_eq. intros id. rewrite cleanup_lookup, map_lookup_filter.
  destruct (sessions !! id) as [s|]; simpl; [|done].
  case_decide.
  - by rewrite option_guard_False by (simpl; tauto).
  - by rewrite option_guard_True.
Qed.

(** X16. A request about one session leaves every other session of the
    map as it is. *)
Theorem requests_isolated now now' req sessions id id' :
  target req = Some id → id' ≠ id →
  (step now now' req sessions).2 !! id' = sessions !! id'.
Proof. apply step_other. Qed.

(** X17. As long as no request creates a session under its identifier
    anew, a session only grows: its identifier, creator, capacity and
    times stay, recipients are added at the end of the list, and a closed
    session does not become active again. *)
Theorem session_history reqs sessions id session session' :
  Forall (λ r, ¬ creates id r.2) reqs →
  sessions !! id = Some session → serve reqs sessions !! id = Some session' →
  recipients session `prefix_of` recipients session'
  ∧ (sessionId session', creatorAddress session', maxRecipients session',
     createdAt session', expiresAt session')
    = (sessionId session, creatorAddress session, maxRecipients session,
       createdAt session, expiresAt session)
  ∧ (active session' = true → active session = true).
Proof.
  intros Hc Hid Hs'.
  destruct (serve_history reqs sessions id session Hc Hid) as [?|(s' & Hs & [])];
    [congruence|].
  assert (s' = session') by congruence. subst. repeat split; auto. congruence.
Qed.

(** What an accepted [add] has done. *)
Lemma add_accepted now now' id a n v j sessions :
  accepted (add now now' id (Some a) n v j sessions).1 →
  ∃ session,
    sessions !! id = Some session ∧ a ≠ EmptyString ∧ ¬ now > expiresAt session
    ∧ active session = true
    ∧ ¬ Z.of_nat (length (recipients session)) >= maxRecipients session
    ∧ add now now' id (Some a) n v j sessions
      = let r := {| address := a; name := or_else n (of_string "Anonymous");
                    amount := or_else v (of_number 0);
                    joinMethod := or_else j (of_string "qr"); addedAt := now' |} in
        (RecipientAdded a (name r) (amount r) (joinMethod r)
           (S (length (recipients session))) (S (length (recipients session))),
         <[id := push r session]> sessions).
Proof.
  unfold add. intros Hacc.
  destruct (truthy (Some a)) as [a'|] eqn:Ha; [|done].
  apply truthy_Some in Ha as [? Ha]. simplify_eq.
  destruct (sessions !! id) as [session|]; [|done].
  exists session.
  case_decide; [done|].
  destruct (active session); simpl in *; [|done].
  destruct (existsb _ _); [done|].
  case_bool_decide; [done|].
  destruct (isAddress a'); simpl in *; [|done].
  repeat split; auto.
  rewrite length_app. simpl. by rewrite Nat.add_1_r.
Qed.

(** X18. After an accepted [add], a second [add] to the session with the
    same address, in whatever case of the letters, is answered with 409
    and changes nothing, as long as the session has not expired. *)
Theorem duplicate_rejected now now' now2 now2' id a a2 n v j n2 v2 j2 sessions session :
  sessions !! id = Some session →
  accepted (add now now' id (Some a) n v j sessions).1 →
  a2 ≠ EmptyString → toLowerCase a2 = toLowerCase a → now2 ≤ expiresAt session →
  add now2 now2' id (Some a2) n2 v2 j2 (add now now' id (Some a) n v j sessions).2
  = (Failure 409 "Address already added",
     (add now now' id (Some a) n v j sessions).2).
Proof.
  intros Hid Hacc Ha2 Heq Hnow.
  destruct (add_accepted _ _ _ _ _ _ _ _ Hacc) as (s & Hs & _ & _ & Hact & _ & ->).
  assert (s = session) by congruence. subst s. cbn zeta. cbn [snd].
  unfold add at 1. simpl truthy. rewrite decide_False by done.
  rewrite lookup_insert_eq. cbn [expiresAt push active].
  rewrite decide_False by lia. rewrite Hact. cbn [negb].
  rewrite (proj2 (some_lowered a2 _)); [done|].
  unfold lowered. cbn [recipients push]. rewrite fmap_app, Heq.
  apply elem_of_app. right. by apply list_elem_of_singleton.
Qed.


End Facts.


Lemma recipients_distinct_witness :
  isAddress (Js := demo_js) alice = true
  ∧ (toLowerCase (Js := demo_js) alice = toLowerCase (Js := demo_js) bob → 0%nat = 1%nat).
Proof.
  apply (recipients_distinct (H := demo_js) demo_joins "k3x9" demo_session 0 1
           (@Build_Recipient demo_js alice "Alice" "5" "qr" 1001)
           (@Build_Recipient demo_js bob "Anonymous" "0" "nfc" 2000));
    vm_compute; reflexivity.
Defined.


Lemma closed_session_frozen_witness :
  serve (H := demo_js) (drop 1 demo_closing)
    (serve (H := demo_js) (take 1 demo_closing) demo_sessions) !! "k3x9" = None
  ∨ serve (H := demo_js) (drop 1 demo_closing)
      (serve (H := demo_js) (take 1 demo_closing) demo_sessions) !! "k3x9"
    = Some (deactivate (H := demo_js) demo_session).
Proof.
  apply (closed_session_frozen (H := demo_js)).
  - repeat constructor; simpl; tauto.
  - vm_compute. reflexivity.
  - reflexivity.
Defined.

Lemma only_creator_closes_witness :
  ∃ c, Close (H := demo_js) "k3x9" (Some (lower_string carol)) = Close "k3x9" (Some c)
       ∧ toLowerCase (Js := demo_js) c = toLowerCase (Js := demo_js) carol
       ∧ deactivate (H := demo_js) demo_session = deactivate (H := demo_js) demo_session.
Proof.
  apply (only_creator_closes (H := demo_js) 3000 3000 _ demo_sessions "k3x9"
           demo_session (deactivate (H := demo_js) demo_session));
    vm_compute; reflexivity.
Defined.

Lemma requests_isolated_witness :
  (step (H := demo_js) 1800001 1800001 (Get "k3x9")
     (<["p7q2" := demo_new]> demo_sessions)).2 !! "p7q2"
  = (<["p7q2" := demo_new]> demo_sessions) !! "p7q2".
Proof.
  apply (requests_isolated (H := demo_js) _ _ _ _ "k3x9"); [reflexivity|done].
Defined.

Lemma session_history_witness :
  recipients (H := demo_js) demo_new `prefix_of` recipients (H := demo_js) demo_session
  ∧ (sessionId (H := demo_js) demo_session, creatorAddress (H := demo_js) demo_session,
     maxRecipients (H := demo_js) demo_session, createdAt (H := demo_js) demo_session,
     expiresAt (H := demo_js) demo_session)
    = (sessionId (H := demo_js) demo_new, creatorAddress (H := demo_js) demo_new,
       maxRecipients (H := demo_js) demo_new, createdAt (H := demo_js) demo_new,
       expiresAt (H := demo_js) demo_new)
  ∧ (active (H := demo_js) demo_session = true → active (H := demo_js) demo_new = true).
Proof.
  apply (session_history (H := demo_js) (drop 1 demo_joins) demo_created "k3x9").
  - repeat constructor; simpl; tauto.
  - vm_compute. reflexivity.
  - vm_compute. reflexivity.
Defined.

Lemma duplicate_rejected_witness :
  add (H := demo_js) 1500 1500 "k3x9" (Some (lower_string alice)) "Al" "7" "link"
    (add (H := demo_js) 1000 1001 "k3x9" (Some alice) "Alice" "5" EmptyString
       demo_created).2
  = (Failure 409 "Address already added",
     (add (H := demo_js) 1000 1001 "k3x9" (Some alice) "Alice" "5" EmptyString
        demo_created).2).
Proof.
  apply (duplicate_rejected (H := demo_js) _ _ _ _ _ _ _ _ _ _ _ _ _ _ demo_new).
  - vm_compute. reflexivity.
  - vm_compute. exact I.
  - discriminate.
  - vm_compute. reflexivity.
  - simpl. lia.
Defined.


End QrJoinFacts.
